(** * Callout inserter: a shallow embedding of [src/main.ts]

    The plugin has two classes with behaviour of their own:
    [CalloutInserterPlugin] (the category source: a stylesheet scan merged
    with the configured defaults) and [CalloutSuggestModal] (the picker with
    its live preview and the insertion action).  JavaScript strings are
    sequences of UTF-16 code units, objects are records, methods are
    computations in a small state-and-exception monad over the object's
    fields, and the two asynchronous capabilities (reading the stylesheet,
    rendering the preview) are split into the synchronous call and the
    later settlement of the promise. *)

From Stdlib Require Import NArith String Ascii.
From stdpp Require Import base decidable option list sorting.

Local Open Scope N_scope.

(** ** JavaScript strings *)

Abbreviation code_unit := N (only parsing).
Abbreviation jsstring := (list code_unit) (only parsing).

(** A string literal of the source; the literals of [main.ts] are ASCII. *)
Definition lit (s : string) : jsstring :=
  N_of_ascii <$> list_ascii_of_string s.

(** The line break written [\n] in the template literals. *)
Definition LF : code_unit := 10.

(** [x < y] on strings: lexicographic on code units, a proper prefix first.
    This is the comparison [Array.prototype.sort] uses without a comparator. *)
Fixpoint str_ltb (x y : jsstring) : bool :=
  match x, y with
  | _, [] => false
  | [], _ :: _ => true
  | a :: x', b :: y' =>
      if a <? b then true else if b <? a then false else str_ltb x' y'
  end.

(** The order the default sort establishes: [y] does not come before [x]. *)
Definition str_le (x y : jsstring) : Prop := str_ltb y x = false.

#[global] Instance str_le_dec x y : Decision (str_le x y).
Proof. unfold str_le. apply _. Defined.

(** [String.prototype.charAt(0)] and [String.prototype.slice(1)]. *)
Definition charAt0 (s : jsstring) : jsstring := take 1 s.
Definition slice1 (s : jsstring) : jsstring := drop 1 s.

(** A position in the document, as [editor.getCursor()] returns it. *)
Record EditorPosition := { line : nat; ch : nat }.

(** Modelled from the spec: the rendering capability's per-session
    handle, which can be torn down.  [unloaded] tells whether it was, and
    [teardowns] counts how often its resources were released. *)
Record Component := { unloaded : bool; teardowns : nat }.

Definition new_Component : Component := {| unloaded := false; teardowns := 0 |}.

(** What the development takes from the host as it is: the Unicode mapping
    of [String.prototype.toUpperCase], where the editor leaves its cursor
    after a change ([cursorAfterChange from text cur], for a cursor at
    [cur] and [text] inserted at [from]), and what a call of
    [Component.prototype.unload] does to a component. *)
Class Host := {
  toUpperCase : jsstring → jsstring;
  cursorAfterChange : EditorPosition → jsstring → EditorPosition → EditorPosition;
  unloadComponent : Component → Component
}.

(** The unload of a host that releases the resources of a component once
    and ignores a call on a component that is already unloaded. *)
Definition Component_unload (c : Component) : Component :=
  if unloaded c then c
  else {| unloaded := true; teardowns := S (teardowns c) |}.

(** An instance for examples: upper case on the letters a-z, a cursor that
    stays where it was, and an unload that may be repeated. *)
Definition upper_unit (c : code_unit) : code_unit :=
  if (97 <=? c) && (c <=? 122) then c - 32 else c.
Definition ascii_host : Host := {|
  toUpperCase := fmap upper_unit;
  cursorAfterChange := λ _ _ cur, cur;
  unloadComponent := Component_unload
|}.


(** ** Completions and the method monad *)

Inductive Error :=
  | TypeError (what : jsstring)
  | HostError (what : jsstring).

Inductive Completion (A : Type) :=
  | Normal (a : A)
  | Throw (e : Error).
Arguments Normal {A} a.
Arguments Throw {A} e.

Definition JS (S A : Type) : Type := S → Completion A * S.

#[global] Instance JS_ret {S} : MRet (JS S) := λ A a s, (Normal a, s).
#[global] Instance JS_bind {S} : MBind (JS S) := λ A B k m s,
  match m s with
  | (Normal a, s') => k a s'
  | (Throw e, s') => (Throw e, s')
  end.
Definition get {S} : JS S S := λ s, (Normal s, s).
Definition modify {S} (f : S → S) : JS S () := λ s, (Normal (), f s).
Definition throw {S A} (e : Error) : JS S A := λ s, (Throw e, s).

(** The state a method leaves behind, and whether it completed normally. *)
Definition exec {S A} (m : JS S A) (s : S) : S := (m s).2.
Definition returns {S A} (m : JS S A) (s : S) : Prop :=
  ∃ a, (m s).1 = Normal a.

(** ** CalloutInserterPlugin: the category source *)

Record CalloutInserterSettings := {
  defaultCalloutTypes : list jsstring
}.

Definition DEFAULT_SETTINGS : CalloutInserterSettings := {|
  defaultCalloutTypes :=
    lit <$> [ "note"; "abstract"; "info"; "todo"; "tip"; "success";
              "question"; "warning"; "failure"; "danger"; "bug"; "example";
              "quote"; "summary" ]%string
|}.

Inductive LogEntry :=
  | LogFound (types : list jsstring)
  | LogCouldNotRead (err : Error).

(** [reading] holds the paths handed to [vault.adapter.read] whose promise
    has not settled; [console] is what [console.log] has printed. *)
Record CalloutInserterPlugin := {
  configDir : jsstring;
  settings : CalloutInserterSettings;
  cssCalloutTypes : list jsstring;
  reading : list jsstring;
  console : list LogEntry
}.

Definition set_cssCalloutTypes (v : list jsstring)
    (p : CalloutInserterPlugin) :=
  {| configDir := configDir p; settings := settings p; cssCalloutTypes := v;
     reading := reading p; console := console p |}.

Definition set_reading (f : list jsstring → list jsstring)
    (p : CalloutInserterPlugin) :=
  {| configDir := configDir p; settings := settings p;
     cssCalloutTypes := cssCalloutTypes p; reading := f (reading p);
     console := console p |}.

Definition console_log (entry : LogEntry) (p : CalloutInserterPlugin) :=
  {| configDir := configDir p; settings := settings p;
     cssCalloutTypes := cssCalloutTypes p; reading := reading p;
     console := console p ++ [entry] |}.

(** *** The scan

    The pattern of the source is the literal [[data-callout=], one quote
    character (double or single), a captured non-empty run of characters
    that are not quotes, one quote character again, and a closing bracket;
    it is applied globally. *)

Definition is_quote (c : code_unit) : bool := (c =? 34) || (c =? 39).

(** The literal prefix of the pattern. *)
Fixpoint strip_prefix (p s : jsstring) : option jsstring :=
  match p, s with
  | [], _ => Some s
  | a :: p', b :: s' => if a =? b then strip_prefix p' s' else None
  | _ :: _, [] => None
  end.

(** The captured run is greedy; what follows it must be a quote, so giving
    back characters never helps and the longest run decides. *)
Fixpoint span_nonquote (s : jsstring) : jsstring * jsstring :=
  match s with
  | [] => ([], [])
  | c :: s' =>
      if is_quote c then ([], s)
      else let '(run, rest) := span_nonquote s' in (c :: run, rest)
  end.

(** A match that starts at the head of [s]: the captured group and the
    length of the whole match. *)
Definition match_here (s : jsstring) : option (jsstring * nat) :=
  match strip_prefix (lit "[data-callout=") s with
  | Some (q :: s1) =>
      if is_quote q then
        match span_nonquote s1 with
        | (c :: run, q' :: b :: _) =>
            if is_quote q' && (b =? 93)
            then Some (c :: run, (14 + 1 + length (c :: run) + 2)%nat)
            else None
        | _ => None
        end
      else None
  | _ => None
  end.

(** [content.matchAll(regex)]: the captures of the successive matches.
    [skip] is how far [lastIndex] lies ahead of the position at hand. *)
Fixpoint matchAll_from (skip : nat) (s : jsstring) : list jsstring :=
  match s with
  | [] => []
  | _ :: s' =>
      match skip with
      | S k => matchAll_from k s'
      | O =>
          match match_here s with
          | Some (cap, len) => cap :: matchAll_from (len - 1) s'
          | None => matchAll_from 0 s'
          end
      end
  end.
Definition matchAll (content : jsstring) : list jsstring :=
  matchAll_from 0 content.

(** [Set.prototype.add] and [Array.from(new Set(xs))]: insertion order, the
    first occurrence of a value kept. *)
Definition Set_add (acc : list jsstring) (x : jsstring) : list jsstring :=
  if decide (x ∈ acc) then acc else acc ++ [x].
Definition Set_of (xs : list jsstring) : list jsstring :=
  foldl Set_add [] xs.

(** [Array.prototype.sort()] without a comparator: a stable sort by
    [str_ltb]. *)
Definition sort (xs : list jsstring) : list jsstring :=
  merge_sort str_le xs.

Definition cssPath (p : CalloutInserterPlugin) : jsstring :=
  configDir p ++ lit "/snippets/callouts.css".

(** Modelled from the spec: the host's [vault.adapter.read], a promise that
    is fulfilled with the text of the file or rejected when it cannot be
    read. *)
Definition ReadResult : Type := Error + jsstring.
Definition Vault : Type := jsstring → ReadResult.

(** The synchronous part of [parseCalloutTypesFromCSS]: the read is
    started and the method returns. *)
Definition parseCalloutTypesFromCSS : JS CalloutInserterPlugin () :=
  p ← get;
  modify (set_reading (λ paths, paths ++ [cssPath p])).

(** The [then] handler. *)
Definition parse_fulfilled (content : jsstring) : JS CalloutInserterPlugin () :=
  let types := foldl Set_add [] (matchAll content) in
  modify (set_cssCalloutTypes types) ;;
  p ← get;
  modify (console_log (LogFound (cssCalloutTypes p))).

(** The [catch] handler. *)
Definition parse_rejected (err : Error) : JS CalloutInserterPlugin () :=
  modify (console_log (LogCouldNotRead err)) ;;
  modify (set_cssCalloutTypes []).

(** [read(cssPath).then(..).catch(..)]: the [catch] is chained behind the
    [then], so it also receives what the [then] handler throws. *)
Definition parse_settled (r : ReadResult) : JS CalloutInserterPlugin () :=
  match r with
  | inr content =>
      λ p, match parse_fulfilled content p with
           | (Normal u, p') => (Normal u, p')
           | (Throw e, p') => parse_rejected e p'
           end
  | inl err => parse_rejected err
  end.

(** The oldest read in flight settles, with what the vault holds under its
    path. *)
Definition read_settles (vault : Vault) : JS CalloutInserterPlugin () :=
  p ← get;
  match reading p with
  | [] => mret ()
  | path :: rest =>
      modify (set_reading (λ _, rest)) ;; parse_settled (vault path)
  end.

Definition getAvailableCalloutTypes (p : CalloutInserterPlugin)
    : list jsstring :=
  let combined := cssCalloutTypes p ++ defaultCalloutTypes (settings p) in
  sort (Set_of combined).

(** The merge as the specification names it. *)
Definition merge (scanned configured : list jsstring) : list jsstring :=
  getAvailableCalloutTypes
    {| configDir := []; settings := {| defaultCalloutTypes := configured |};
       cssCalloutTypes := scanned; reading := []; console := [] |}.


(** ** The host objects the picker holds *)

(** *** The editor *)

(** The calls [insertCallout] makes on the editor. *)
Inductive EditorCall :=
  | CallReplaceRange (text : jsstring) (from : EditorPosition)
  | CallSetCursor (pos : EditorPosition)
  | CallFocus.

(** Modelled from the spec: the document-editing capability ([getCursor],
    [replaceRange] with a single position, which inserts, [setCursor],
    [focus]).  The document is the array of its lines; every call is also
    recorded, in order. *)
Record Editor := {
  lines : list jsstring;
  cursor : EditorPosition;
  hasFocus : bool;
  calls : list EditorCall
}.

(** The lines of a text: split at every line break, never empty. *)
Fixpoint split_lines (t : jsstring) : list jsstring :=
  match t with
  | [] => [[]]
  | c :: t' =>
      if c =? LF then [] :: split_lines t'
      else match split_lines t' with
           | l :: ls => (c :: l) :: ls
           | [] => [[c]]
           end
  end.

(** The text of a document: its lines, a line break between two of them. *)
Fixpoint join_lines (ls : list jsstring) : jsstring :=
  match ls with
  | [] => []
  | l :: ls' =>
      match ls' with
      | [] => l
      | _ :: _ => l ++ LF :: join_lines ls'
      end
  end.

(** [editor.posToOffset]: the index of a position in the text. *)
Definition posToOffset (ls : list jsstring) (p : EditorPosition) : nat :=
  (length (join_lines (take (line p) ls ++ [[]])) + ch p)%nat.

(** A position the editor can hand out for the document [ls]. *)
Definition valid_pos (ls : list jsstring) (p : EditorPosition) : Prop :=
  ∃ l, ls !! line p = Some l ∧ (ch p ≤ length l)%nat.

Definition insert_at (text : jsstring) (from : EditorPosition)
    (ls : list jsstring) : list jsstring :=
  let old := default [] (ls !! line from) in
  take (line from) ls
  ++ split_lines (take (ch from) old ++ text ++ drop (ch from) old)
  ++ drop (S (line from)) ls.

Definition Editor_replaceRange `{Host} (text : jsstring)
    (from : EditorPosition) (e : Editor) : Editor :=
  {| lines := insert_at text from (lines e);
     cursor := cursorAfterChange from text (cursor e);
     hasFocus := hasFocus e;
     calls := calls e ++ [CallReplaceRange text from] |}.

Definition Editor_setCursor (pos : EditorPosition) (e : Editor) : Editor :=
  {| lines := lines e; cursor := pos; hasFocus := hasFocus e;
     calls := calls e ++ [CallSetCursor pos] |}.

Definition Editor_focus (e : Editor) : Editor :=
  {| lines := lines e; cursor := cursor e; hasFocus := true;
     calls := calls e ++ [CallFocus] |}.

(** *** MutationObserver *)

(** Modelled from the spec: the structural observation of the result list;
    [disconnect] stops it and may be repeated. *)
Record MutationObserver := { observing : bool }.

Definition MutationObserver_observe (o : MutationObserver) : MutationObserver :=
  {| observing := true |}.
Definition MutationObserver_disconnect (o : MutationObserver)
    : MutationObserver :=
  {| observing := false |}.

(** *** Rows of the result list *)

Record Element := {
  classList : list jsstring;
  dataset_calloutType : option jsstring;
  children : list jsstring;
  mouseenter : list jsstring
}.

(** A record as the observer's callback reads it: [target] is the element
    in the state it has when the batch is delivered, not the state it had
    when the change was made. *)
Record MutationRecord := {
  mutation_type : jsstring;
  attributeName : option jsstring;
  target : Element
}.

(** ** CalloutSuggestModal: the picker *)

(** [previewEl] is the preview container, given by the content mounted in
    it: one entry per rendered document, named by its markdown source.
    [rendering] holds the calls of [MarkdownRenderer.render] whose promise
    has not settled, [renderCalls] counts all of them, and [unhandled] is
    where the rejection of a promise nobody awaits ends up. *)
Record CalloutSuggestModal := {
  editor : Editor;
  calloutTypes : list jsstring;
  previewEl : list jsstring;
  component : Component;
  currentPreviewType : option jsstring;
  observer : option MutationObserver;
  rendering : list jsstring;
  renderCalls : nat;
  unhandled : list Error
}.

Definition set_editor (f : Editor → Editor) (m : CalloutSuggestModal) :=
  {| editor := f (editor m); calloutTypes := calloutTypes m;
     previewEl := previewEl m; component := component m;
     currentPreviewType := currentPreviewType m; observer := observer m;
     rendering := rendering m; renderCalls := renderCalls m;
     unhandled := unhandled m |}.

Definition set_previewEl (f : list jsstring → list jsstring)
    (m : CalloutSuggestModal) :=
  {| editor := editor m; calloutTypes := calloutTypes m;
     previewEl := f (previewEl m); component := component m;
     currentPreviewType := currentPreviewType m; observer := observer m;
     rendering := rendering m; renderCalls := renderCalls m;
     unhandled := unhandled m |}.

Definition set_component (f : Component → Component)
    (m : CalloutSuggestModal) :=
  {| editor := editor m; calloutTypes := calloutTypes m;
     previewEl := previewEl m; component := f (component m);
     currentPreviewType := currentPreviewType m; observer := observer m;
     rendering := rendering m; renderCalls := renderCalls m;
     unhandled := unhandled m |}.

Definition set_currentPreviewType (v : option jsstring)
    (m : CalloutSuggestModal) :=
  {| editor := editor m; calloutTypes := calloutTypes m;
     previewEl := previewEl m; component := component m;
     currentPreviewType := v; observer := observer m;
     rendering := rendering m; renderCalls := renderCalls m;
     unhandled := unhandled m |}.

Definition set_observer (v : option MutationObserver)
    (m : CalloutSuggestModal) :=
  {| editor := editor m; calloutTypes := calloutTypes m;
     previewEl := previewEl m; component := component m;
     currentPreviewType := currentPreviewType m; observer := v;
     rendering := rendering m; renderCalls := renderCalls m;
     unhandled := unhandled m |}.

Definition set_rendering (f : list jsstring → list jsstring)
    (m : CalloutSuggestModal) :=
  {| editor := editor m; calloutTypes := calloutTypes m;
     previewEl := previewEl m; component := component m;
     currentPreviewType := currentPreviewType m; observer := observer m;
     rendering := f (rendering m); renderCalls := renderCalls m;
     unhandled := unhandled m |}.

Definition count_render (m : CalloutSuggestModal) :=
  {| editor := editor m; calloutTypes := calloutTypes m;
     previewEl := previewEl m; component := component m;
     currentPreviewType := currentPreviewType m; observer := observer m;
     rendering := rendering m; renderCalls := S (renderCalls m);
     unhandled := unhandled m |}.

Definition report_unhandled (e : Error) (m : CalloutSuggestModal) :=
  {| editor := editor m; calloutTypes := calloutTypes m;
     previewEl := previewEl m; component := component m;
     currentPreviewType := currentPreviewType m; observer := observer m;
     rendering := rendering m; renderCalls := renderCalls m;
     unhandled := unhandled m ++ [e] |}.

(** The constructor: the preview container is created empty, the component
    is new, nothing is previewed and there is no observer yet. *)
Definition new_CalloutSuggestModal (ed : Editor) (types : list jsstring)
    : CalloutSuggestModal :=
  {| editor := ed; calloutTypes := types; previewEl := [];
     component := new_Component; currentPreviewType := None;
     observer := None; rendering := []; renderCalls := 0; unhandled := [] |}.

(** A method call on [this.observer]: a [TypeError] while the field is
    still undefined. *)
Definition on_observer (f : MutationObserver → MutationObserver)
    : JS CalloutSuggestModal () :=
  m ← get;
  match observer m with
  | Some o => modify (set_observer (Some (f o)))
  | None => throw (TypeError (lit "this.observer is undefined"))
  end.

(** Modelled from the spec: [MarkdownRenderer.render] is asynchronous; the
    call starts a render of [source] for the preview container and hands
    back a promise.  The content is mounted when the promise is fulfilled
    (see [render_settles]). *)
Definition MarkdownRenderer_render (source : jsstring)
    : JS CalloutSuggestModal () :=
  modify count_render ;;
  modify (set_rendering (λ rs, rs ++ [source])).

Inductive RenderResult :=
  | Fulfilled
  | Rejected (e : Error).

(** The [i]-th render in flight settles.  [updatePreview] has nothing left
    to do after its [await]; its own promise settles the same way, and no
    caller awaits or catches it. *)
Definition render_settles (i : nat) (r : RenderResult)
    (m : CalloutSuggestModal) : CalloutSuggestModal :=
  match rendering m !! i with
  | None => m
  | Some source =>
      let m' := set_rendering (delete i) m in
      match r with
      | Fulfilled => set_previewEl (λ content, content ++ [source]) m'
      | Rejected e => report_unhandled e m'
      end
  end.

Section Picker.
Context `{Host}.

Definition calloutMarkdown (type : jsstring) : jsstring :=
  lit "> [!" ++ type ++ lit "] "
  ++ (toUpperCase (charAt0 type) ++ slice1 type)
  ++ [LF] ++ lit "> This is a preview of the " ++ type ++ lit " callout.".

(** The synchronous part of [updatePreview], up to the [await]. *)
Definition updatePreview (type : jsstring) : JS CalloutSuggestModal () :=
  m ← get;
  if decide (currentPreviewType m = Some type) then mret ()
  else
    modify (set_currentPreviewType (Some type)) ;;
    modify (set_previewEl (λ _, [])) ;;
    MarkdownRenderer_render (calloutMarkdown type).

Definition calloutText (type : jsstring) : jsstring :=
  lit "> [!" ++ type ++ lit "]" ++ [LF] ++ lit "> ".

Definition insertCallout (type : jsstring) : JS CalloutSuggestModal () :=
  m ← get;
  let cursor := cursor (editor m) in
  modify (set_editor (Editor_replaceRange (calloutText type) cursor)) ;;
  let newCursor := {| line := line cursor + 1; ch := 2 |} in
  modify (set_editor (Editor_setCursor newCursor)) ;;
  modify (set_editor Editor_focus).

Definition onChooseItem (item : jsstring) : JS CalloutSuggestModal () :=
  insertCallout item.

Definition is_selected (el : Element) : bool :=
  bool_decide (lit "is-selected" ∈ classList el).

(** [renderSuggestion(match, el)] for [match.item = item]: the row as the
    method leaves it. *)
Definition renderSuggestion (item : jsstring) (el : Element)
    : JS CalloutSuggestModal Element :=
  let el := {| classList := classList el;
               dataset_calloutType := dataset_calloutType el;
               children := children el ++ [item];
               mouseenter := mouseenter el |} in
  let el := {| classList := classList el;
               dataset_calloutType := Some item;
               children := children el;
               mouseenter := mouseenter el |} in
  let el := {| classList := classList el;
               dataset_calloutType := dataset_calloutType el;
               children := children el;
               mouseenter := mouseenter el ++ [item] |} in
  (if is_selected el then updatePreview item else mret ()) ;;
  mret el.

(** [for (const x of xs) body]. *)
Fixpoint for_of {S A} (xs : list A) (body : A → JS S ()) : JS S () :=
  match xs with
  | [] => mret ()
  | x :: xs' => body x ;; for_of xs' body
  end.

(** The callback handed to the [MutationObserver] in [onOpen]. *)
Definition observer_callback (mutations : list MutationRecord)
    : JS CalloutSuggestModal () :=
  for_of mutations (λ mutation,
    if bool_decide (mutation_type mutation = lit "attributes")
       && bool_decide (attributeName mutation = Some (lit "class"))
    then
      if is_selected (target mutation) then
        match dataset_calloutType (target mutation) with
        | Some (c :: type) => updatePreview (c :: type)
        | _ => mret ()
        end
      else mret ()
    else mret ()).

(** [super.onOpen()] and [super.onClose()] are the host's and touch none
    of the fields above. *)
Definition onOpen : JS CalloutSuggestModal () :=
  modify (set_observer (Some {| observing := false |})) ;;
  on_observer MutationObserver_observe.

Definition onClose : JS CalloutSuggestModal () :=
  modify (set_component unloadComponent) ;;
  m ← get;
  match observer m with
  | Some _ => on_observer MutationObserver_disconnect
  | None => mret ()
  end.

(** *** The session as the event loop drives it *)

Inductive Event :=
  | Materialize (item : jsstring) (el : Element)
  | MouseEnter (item : jsstring)
  | Mutations (ms : list MutationRecord)
  | Settles (i : nat) (r : RenderResult)
  | Choose (item : jsstring)
  | Close.

(** The observer's callback only runs while the observer is connected. *)
Definition handle (ev : Event) : JS CalloutSuggestModal () :=
  match ev with
  | Materialize item el => renderSuggestion item el ;; mret ()
  | MouseEnter item => updatePreview item
  | Mutations ms =>
      m ← get;
      match observer m with
      | Some {| observing := true |} => observer_callback ms
      | _ => mret ()
      end
  | Settles i r => modify (render_settles i r)
  | Choose item => onChooseItem item
  | Close => onClose
  end.

Definition run (evs : list Event) (m : CalloutSuggestModal)
    : CalloutSuggestModal :=
  foldl (λ m ev, exec (handle ev) m) m evs.

(** Every handler of [evs] completes normally. *)
Fixpoint run_returns (evs : list Event) (m : CalloutSuggestModal) : Prop :=
  match evs with
  | [] => True
  | ev :: evs' =>
      returns (handle ev) m ∧ run_returns evs' (exec (handle ev) m)
  end.

(** [showPreview(c)] of the specification is [updatePreview(c)], however
    it was signalled. *)
Definition showPreview (c : jsstring) : Event := MouseEnter c.

(** *** The plugin and its open picker *)

Record Workspace := {
  plugin : CalloutInserterPlugin;
  session : option CalloutSuggestModal
}.

(** The [editorCallback] of the command: a new picker over the merged
    categories, opened. *)
Definition editorCallback (ed : Editor) (w : Workspace) : Workspace :=
  {| plugin := plugin w;
     session := Some (exec onOpen
       (new_CalloutSuggestModal ed (getAvailableCalloutTypes (plugin w)))) |}.

Definition in_session (ev : Event) (w : Workspace) : Workspace :=
  {| plugin := plugin w;
     session := (λ m, exec (handle ev) m) <$> session w |}.
End Picker.

(** ** A picker to run examples on *)

(** A note of five lines with the cursor in the fourth (line 3, column 4). *)
Definition sample_editor : Editor := {|
  lines := [lit "# Title"; []; lit "Some text."; lit "More text here.";
            lit "The end."];
  cursor := {| line := 3; ch := 4 |};
  hasFocus := false;
  calls := []
|}.

Definition sample_plugin : CalloutInserterPlugin := {|
  configDir := lit ".obsidian";
  settings := DEFAULT_SETTINGS;
  cssCalloutTypes := [lit "custom"];
  reading := [];
  console := []
|}.

(** The picker the command opens over [sample_plugin], and the same picker
    before [onOpen] ran. *)
Definition sample_unopened : CalloutSuggestModal :=
  new_CalloutSuggestModal sample_editor
    (getAvailableCalloutTypes sample_plugin).

Definition sample_modal : CalloutSuggestModal :=
  exec onOpen sample_unopened.

(** The changes of the current category that a sequence of requests makes,
    starting from [cur]: a request counts when it names another category
    than the one before it. *)
Fixpoint changes (cur : option jsstring) (cs : list jsstring) : nat :=
  match cs with
  | [] => 0
  | c :: cs' =>
      ((if decide (cur = Some c) then 0 else 1) + changes (Some c) cs')%nat
  end.

(** Preview requests and settlements only; [requested] lists the
    categories asked for, in order. *)
Definition is_traffic (ev : Event) : Prop :=
  match ev with
  | MouseEnter _ | Settles _ _ => True
  | _ => False
  end.

Fixpoint requested (evs : list Event) : list jsstring :=
  match evs with
  | [] => []
  | MouseEnter c :: evs' => c :: requested evs'
  | _ :: evs' => requested evs'
  end.

(** Preview requests and settlements of renders that succeed. *)
Definition is_fulfilled_traffic (ev : Event) : Prop :=
  match ev with
  | MouseEnter _ | Settles _ Fulfilled => True
  | _ => False
  end.

(** Whatever is current has its sample document mounted or in flight, as
    long as no render fails. *)
Definition current_is_served `{Host} (m : CalloutSuggestModal) : Prop :=
  ∀ c, currentPreviewType m = Some c →
       calloutMarkdown c ∈ previewEl m ++ rendering m.

(** The rows of a result list being materialized, top to bottom: each with
    the element the list widget hands to [renderSuggestion]. *)
Definition materialize (rows : list (jsstring * Element)) : list Event :=
  (λ row, Materialize row.1 row.2) <$> rows.

(** A row element as the widget creates it, marked selected or not. *)
Definition row_element (selected : bool) : Element := {|
  classList :=
    if selected then [lit "suggestion-item"; lit "is-selected"]
    else [lit "suggestion-item"];
  dataset_calloutType := None;
  children := [];
  mouseenter := []
|}.

(** Every line with a line break in front of it; [join_lines] is this
    without the first break. *)
Definition sep_lines (ls : list jsstring) : jsstring :=
  ls ≫= (λ l, LF :: l).

(** ** Settings and start-up *)

(** What [loadData] resolves to is [null] when nothing was saved, or the
    saved object, which carries the key [defaultCalloutTypes] or not. *)
Record SavedData := { saved_defaultCalloutTypes : option (list jsstring) }.

Definition set_settings (v : CalloutInserterSettings)
    (p : CalloutInserterPlugin) :=
  {| configDir := configDir p; settings := v;
     cssCalloutTypes := cssCalloutTypes p; reading := reading p;
     console := console p |}.

(** [Object.assign({}, defaults, data)] on the one key of the settings. *)
Definition Object_assign (defaults : CalloutInserterSettings)
    (data : option SavedData) : CalloutInserterSettings :=
  match data with
  | Some {| saved_defaultCalloutTypes := Some types |} =>
      {| defaultCalloutTypes := types |}
  | _ => defaults
  end.

Definition loadSettings (data : option SavedData)
    : JS CalloutInserterPlugin () :=
  modify (set_settings (Object_assign DEFAULT_SETTINGS data)).

(** [saveSettings]: the object it hands to [saveData]. *)
Definition saveSettings : JS CalloutInserterPlugin SavedData :=
  p ← get;
  mret {| saved_defaultCalloutTypes :=
            Some (defaultCalloutTypes (settings p)) |}.

(** [onload], as far as the plugin's own fields go: the settings are
    loaded, then the scan is started; the command and the settings tab are
    registered with the host. *)
Definition onload (data : option SavedData) : JS CalloutInserterPlugin () :=
  loadSettings data ;; parseCalloutTypesFromCSS.

(** A method of the plugin, run while a picker may be open. *)
Definition plugin_do (f : JS CalloutInserterPlugin ()) (w : Workspace)
    : Workspace :=
  {| plugin := exec f (plugin w); session := session w |}.

(** ** CalloutInserterSettingTab *)

Inductive Node :=
  | Heading2 (text : jsstring)
  | SettingRow (name desc : jsstring) (button : nat)
  | Heading3 (text : jsstring)
  | Div (cls text : jsstring).

(** [tab_plugin] is the plugin the tab was built with.  A button is named
    by its index in [buttons], which holds the text of every button ever
    created; [timeouts] lists the buttons that pending [setTimeout]
    callbacks will relabel. *)
Record CalloutInserterSettingTab := {
  tab_plugin : CalloutInserterPlugin;
  containerEl : list Node;
  buttons : list jsstring;
  timeouts : list nat
}.

Definition set_containerEl (f : list Node → list Node)
    (t : CalloutInserterSettingTab) :=
  {| tab_plugin := tab_plugin t; containerEl := f (containerEl t);
     buttons := buttons t; timeouts := timeouts t |}.

Definition set_buttons (f : list jsstring → list jsstring)
    (t : CalloutInserterSettingTab) :=
  {| tab_plugin := tab_plugin t; containerEl := containerEl t;
     buttons := f (buttons t); timeouts := timeouts t |}.

Definition set_timeouts (f : list nat → list nat)
    (t : CalloutInserterSettingTab) :=
  {| tab_plugin := tab_plugin t; containerEl := containerEl t;
     buttons := buttons t; timeouts := f (timeouts t) |}.

(** A method of the plugin called through [this.plugin]. *)
Definition on_plugin {A} (f : JS CalloutInserterPlugin A)
    : JS CalloutInserterSettingTab A :=
  λ t, let '(r, p) := f (tab_plugin t) in
       (r, {| tab_plugin := p; containerEl := containerEl t;
              buttons := buttons t; timeouts := timeouts t |}).

(** [Array.prototype.join(sep)]. *)
Fixpoint Array_join (sep : jsstring) (xs : list jsstring) : jsstring :=
  match xs with
  | [] => []
  | x :: xs' =>
      match xs' with
      | [] => x
      | _ :: _ => x ++ sep ++ Array_join sep xs'
      end
  end.

(** [a || b] on strings: the empty string is the only falsy one. *)
Definition or_else (a b : jsstring) : jsstring :=
  match a with
  | [] => b
  | _ :: _ => a
  end.

Definition display : JS CalloutInserterSettingTab () :=
  modify (set_containerEl (λ _, [])) ;;
  modify (set_containerEl
            (λ c, c ++ [Heading2 (lit "Callout Inserter Settings")])) ;;
  t ← get;
  let button := length (buttons t) in
  modify (set_containerEl
            (λ c, c ++ [SettingRow
                          (lit "Refresh callout types from CSS")
                          (lit "Re-scan the callouts.css file for available callout types")
                          button])) ;;
  modify (set_buttons (λ bs, bs ++ [lit "Refresh"])) ;;
  modify (set_containerEl (λ c, c ++ [Heading3 (lit "Found Callout Types")])) ;;
  t ← get;
  let text :=
    or_else (Array_join (lit ", ") (getAvailableCalloutTypes (tab_plugin t)))
            (lit "None found") in
  modify (set_containerEl (λ c, c ++ [Div (lit "callout-types-list") text])).

(** The [onClick] handler of the button [button]. *)
Definition onClick (button : nat) : JS CalloutInserterSettingTab () :=
  on_plugin parseCalloutTypesFromCSS ;;
  modify (set_buttons (λ bs, <[button := lit "Refreshed!"]> bs)) ;;
  modify (set_timeouts (λ ts, ts ++ [button])).

(** The [i]-th pending timeout runs. *)
Definition timeout_fires (i : nat) : JS CalloutInserterSettingTab () :=
  t ← get;
  match timeouts t !! i with
  | None => mret ()
  | Some button =>
      modify (set_timeouts (delete i)) ;;
      modify (set_buttons (λ bs, <[button := lit "Refresh"]> bs))
  end.

(** ** Selection changes reported by the observer *)

(** The list widget marks a row as the selected one. *)
Definition mark_selected (el : Element) : Element :=
  {| classList := classList el ++ [lit "is-selected"];
     dataset_calloutType := dataset_calloutType el;
     children := children el;
     mouseenter := mouseenter el |}.

(** A record of a change of classes whose target, when the callback reads
    it, is [el]. *)
Definition class_mutation (el : Element) : MutationRecord :=
  {| mutation_type := lit "attributes";
     attributeName := Some (lit "class");
     target := el |}.

(** The category a mutation record asks a preview for, if any. *)
Definition requested_by (mutation : MutationRecord) : option jsstring :=
  if bool_decide (mutation_type mutation = lit "attributes")
     && bool_decide (attributeName mutation = Some (lit "class"))
     && is_selected (target mutation)
  then match dataset_calloutType (target mutation) with
       | Some (c :: type) => Some (c :: type)
       | _ => None
       end
  else None.

(** Events as the picker's own wiring produces them: rows are
    materialized for items of the picker, the pointer enters such rows,
    and the rows the observer reports carry what [renderSuggestion]
    stored in them. *)
Definition wired (types : list jsstring) (ev : Event) : Prop :=
  match ev with
  | Materialize item _ | MouseEnter item => item ∈ types
  | Mutations ms =>
      Forall (λ mutation,
                ∀ t, dataset_calloutType (target mutation) = Some t →
                     t ∈ types) ms
  | _ => True
  end.

(** Everything current, mounted or in flight belongs to a category of the
    picker. *)
Definition previews_categories `{Host} (m : CalloutSuggestModal) : Prop :=
  (∀ c, currentPreviewType m = Some c → c ∈ calloutTypes m)
  ∧ Forall (λ source, ∃ c, c ∈ calloutTypes m ∧ source = calloutMarkdown c)
           (previewEl m ++ rendering m).

(** Requests that do not overlap: each render is fulfilled before the next
    request is made. *)
Definition one_at_a_time (cs : list jsstring) : list Event :=
  cs ≫= (λ c, [showPreview c; Settles 0 Fulfilled]).

(** A document none of whose lines holds a line break. *)
Definition lines_ok (ls : list jsstring) : Prop :=
  Forall (λ l, LF ∉ l) ls.

(** A rule of the stylesheet for [name], with the quotes [q] and [q']. *)
Definition callout_rule (q : code_unit) (name : jsstring) (q' : code_unit)
    : jsstring :=
  lit "[data-callout=" ++ q :: name ++ [q'; 93].

(** A stylesheet written out as rules, each with the text in front of
    it, and the text behind the last rule. *)
Record Rule := {
  text_before : jsstring;
  open_quote : code_unit;
  rule_name : jsstring;
  close_quote : code_unit
}.

Definition rule_text (r : Rule) : jsstring :=
  text_before r ++ callout_rule (open_quote r) (rule_name r) (close_quote r).

Definition stylesheet (rules : list Rule) (rest : jsstring) : jsstring :=
  (rules ≫= rule_text) ++ rest.

(** No opening bracket in front of the rule, a quote character on either
    side of the name, and a name that is not empty and holds no quote. *)
Definition well_formed (r : Rule) : Prop :=
  (91 ∉ text_before r)
  ∧ is_quote (open_quote r) = true ∧ is_quote (close_quote r) = true
  ∧ rule_name r ≠ [] ∧ Forall (λ c, is_quote c = false) (rule_name r).

(** * Properties *)

(** ** The order on strings *)

Lemma str_ltb_irrefl x : str_ltb x x = false.
Proof.
  induction x as [|a x IH]; simpl; [done|].
  by rewrite N.ltb_irrefl.
Qed.

Lemma str_ltb_asym x y : str_ltb x y = true → str_ltb y x = false.
Proof.
  revert y; induction x as [|a x IH]; intros [|b y]; simpl; try done.
  destruct (N.ltb_spec a b), (N.ltb_spec b a); try done; try lia.
  apply IH.
Qed.

Lemma str_le_antisym x y : str_le x y → str_le y x → x = y.
Proof.
  unfold str_le. revert y; induction x as [|a x IH]; intros [|b y]; simpl;
    try done.
  destruct (N.ltb_spec a b), (N.ltb_spec b a); try done.
  intros Hyx Hxy. assert (a = b) as -> by lia. f_equal. by apply IH.
Qed.

Lemma str_le_trans x y z : str_le x y → str_le y z → str_le x z.
Proof.
  unfold str_le. revert y z; induction x as [|a x IH]; intros [|b y] [|c z];
    simpl; try done.
  destruct (N.ltb_spec b a), (N.ltb_spec a b), (N.ltb_spec c b),
    (N.ltb_spec b c), (N.ltb_spec c a), (N.ltb_spec a c);
    try done; try lia.
  apply IH.
Qed.

#[global] Instance str_le_total : Total str_le.
Proof.
  intros x y. unfold str_le.
  destruct (str_ltb y x) eqn:E; [right; by apply str_ltb_asym | by left].
Qed.

#[global] Instance str_le_transitive : Transitive str_le.
Proof. intros x y z. apply str_le_trans. Qed.

#[global] Instance str_le_reflexive : Reflexive str_le.
Proof. intros x. apply str_ltb_irrefl. Qed.

#[global] Instance str_le_antisymmetric : AntiSymm (=) str_le.
Proof. intros x y. apply str_le_antisym. Qed.

(** ** Sets and sorting *)

Lemma Set_add_elem acc x y : y ∈ Set_add acc x ↔ y ∈ acc ∨ y = x.
Proof.
  unfold Set_add. case_decide.
  - split; [by left|]. intros [?| ->]; done.
  - rewrite elem_of_app, list_elem_of_singleton. done.
Qed.

Lemma Set_add_NoDup acc x : NoDup acc → NoDup (Set_add acc x).
Proof.
  intros Hnd. unfold Set_add. case_decide; [done|].
  apply NoDup_app. repeat split; [done| |apply NoDup_singleton].
  intros y Hy Hy'. apply list_elem_of_singleton in Hy' as ->. done.
Qed.

Lemma foldl_Set_add_elem xs acc y :
  y ∈ foldl Set_add acc xs ↔ y ∈ acc ∨ y ∈ xs.
Proof.
  revert acc; induction xs as [|x xs IH]; intros acc; simpl.
  - split; [by left|]. intros [?|Hy]; [done|]. by apply not_elem_of_nil in Hy.
  - rewrite IH, Set_add_elem, elem_of_cons. tauto.
Qed.

Lemma foldl_Set_add_NoDup xs acc :
  NoDup acc → NoDup (foldl Set_add acc xs).
Proof.
  revert acc; induction xs as [|x xs IH]; intros acc Hnd; simpl; [done|].
  by apply IH, Set_add_NoDup.
Qed.

Lemma Set_of_elem xs y : y ∈ Set_of xs ↔ y ∈ xs.
Proof.
  unfold Set_of. rewrite foldl_Set_add_elem.
  split; [|by right]. intros [Hy|?]; [|done]. by apply not_elem_of_nil in Hy.
Qed.

Lemma Set_of_NoDup xs : NoDup (Set_of xs).
Proof. apply foldl_Set_add_NoDup, NoDup_nil_2. Qed.

Lemma sort_Permutation xs : sort xs ≡ₚ xs.
Proof. apply merge_sort_Permutation. Qed.

Lemma sort_StronglySorted xs : StronglySorted str_le (sort xs).
Proof. apply StronglySorted_merge_sort; apply _. Qed.

(** A list without duplicates that is sorted by an antisymmetric order is
    determined by its elements. *)
Lemma sorted_NoDup_unique (xs ys : list jsstring) :
  StronglySorted str_le xs → StronglySorted str_le ys →
  NoDup xs → NoDup ys → (∀ x, x ∈ xs ↔ x ∈ ys) → xs = ys.
Proof.
  intros Hxs; revert ys; induction Hxs as [|x xs Hxs IH Hx];
    intros ys Hys Hnx Hny Heq.
  - destruct ys as [|y ys]; [done|]. exfalso.
    apply (not_elem_of_nil y), Heq. left.
  - destruct Hys as [|y ys Hys Hy].
    { exfalso. apply (not_elem_of_nil x), Heq. left. }
    apply NoDup_cons in Hnx as [Hxnot Hnx], Hny as [Hynot Hny].
    rewrite Forall_forall in Hx, Hy.
    assert (x = y) as ->.
    { assert (x ∈ y :: ys) as Hxin by (apply Heq; left).
      assert (y ∈ x :: xs) as Hyin by (apply Heq; left).
      apply elem_of_cons in Hxin as [->|Hxin]; [done|].
      apply elem_of_cons in Hyin as [->|Hyin]; [done|].
      apply str_le_antisym; [by apply Hx | by apply Hy]. }
    f_equal. apply IH; [done..|].
    intros z. split; intros Hz.
    + assert (z ∈ y :: ys) as Hz' by (apply Heq; by right).
      apply elem_of_cons in Hz' as [->|]; done.
    + assert (z ∈ y :: xs) as Hz' by (apply Heq; by right).
      apply elem_of_cons in Hz' as [->|]; done.
Qed.

(** Without duplicates, sorted means strictly ascending. *)
Lemma StronglySorted_strict (l : list jsstring) :
  StronglySorted str_le l → NoDup l →
  StronglySorted (λ a b, str_ltb a b = true) l.
Proof.
  induction 1 as [|x l Hl IH Hx]; intros Hnd; constructor.
  - apply IH. by apply NoDup_cons in Hnd as [_ ?].
  - apply NoDup_cons in Hnd as [Hx' _].
    rewrite Forall_forall in Hx |- *. intros y Hy.
    destruct (str_ltb x y) eqn:E; [done|exfalso].
    apply Hx'. rewrite (str_le_antisym x y); [done|by apply Hx|done].
Qed.

Lemma getAvailableCalloutTypes_elem p x :
  x ∈ getAvailableCalloutTypes p ↔
  x ∈ cssCalloutTypes p ∨ x ∈ defaultCalloutTypes (settings p).
Proof.
  unfold getAvailableCalloutTypes. rewrite sort_Permutation, Set_of_elem.
  apply elem_of_app.
Qed.

Lemma getAvailableCalloutTypes_NoDup p : NoDup (getAvailableCalloutTypes p).
Proof.
  unfold getAvailableCalloutTypes. rewrite sort_Permutation.
  apply Set_of_NoDup.
Qed.

Lemma getAvailableCalloutTypes_sorted p :
  StronglySorted str_le (getAvailableCalloutTypes p).
Proof. apply sort_StronglySorted. Qed.

Example scan_example :
  matchAll (lit ".callout[data-callout=" ++ [34] ++ lit "custom" ++ [34]
            ++ lit "] { } [data-callout='x-y']{} [data-callout='']")
  = [lit "custom"; lit "x-y"].
Proof. vm_compute. reflexivity. Qed.

Example sort_example :
  sort [lit "tip"; lit "Note"; lit "note"; lit "no"; lit "abstract"]
  = [lit "Note"; lit "abstract"; lit "no"; lit "note"; lit "tip"].
Proof. vm_compute. reflexivity. Qed.

Example default_picker_example :
  getAvailableCalloutTypes sample_plugin
  = lit <$> [ "abstract"; "bug"; "custom"; "danger"; "example"; "failure";
              "info"; "note"; "question"; "quote"; "success"; "summary";
              "tip"; "todo"; "warning" ]%string.
Proof. vm_compute. reflexivity. Qed.

(** ** C5: the merge *)

(** C5.  [getAvailableCalloutTypes] (the merge of the scanned and the
    configured names) returns exactly the names of either input, each once,
    in strictly ascending code-unit order; the result depends on nothing
    but the set of names put in; and the scanned set with the single name
    custom merged with the configured note, custom, tip gives custom, note,
    tip. *)
Theorem merge_sorted_dedup_union :
  (∀ scanned configured,
     let out := merge scanned configured in
     (∀ x, x ∈ out ↔ x ∈ scanned ∨ x ∈ configured)
     ∧ NoDup out
     ∧ StronglySorted (λ a b, str_ltb a b = true) out)
  ∧ (∀ scanned configured scanned' configured',
       (∀ x, x ∈ scanned ∨ x ∈ configured ↔ x ∈ scanned' ∨ x ∈ configured') →
       merge scanned configured = merge scanned' configured')
  ∧ merge [lit "custom"] [lit "note"; lit "custom"; lit "tip"]
    = [lit "custom"; lit "note"; lit "tip"].
Proof.
  split; [|split].
  - intros scanned configured out. split; [|split].
    + intros x. apply getAvailableCalloutTypes_elem.
    + apply getAvailableCalloutTypes_NoDup.
    + apply StronglySorted_strict.
      * apply getAvailableCalloutTypes_sorted.
      * apply getAvailableCalloutTypes_NoDup.
  - intros s c s' c' Heq.
    apply sorted_NoDup_unique;
      try apply getAvailableCalloutTypes_sorted;
      try apply getAvailableCalloutTypes_NoDup.
    intros x. unfold merge. rewrite !getAvailableCalloutTypes_elem. apply Heq.
  - vm_compute. reflexivity.
Qed.

(** The order and the multiplicity of the inputs do not show in the merge. *)
Lemma merge_sorted_dedup_union_witness :
  merge [lit "tip"; lit "custom"] [lit "note"; lit "custom"]
  = merge [lit "note"] [lit "custom"; lit "tip"; lit "tip"].
Proof.
  apply (proj1 (proj2 merge_sorted_dedup_union)).
  intros x. rewrite !elem_of_cons, !elem_of_nil. tauto.
Defined.

(** ** Running methods *)

Ltac js_unfold :=
  unfold exec, returns, mbind, mret, JS_bind, JS_ret, get, modify, throw in *.

Lemma updatePreview_eq `{Host} type m :
  updatePreview type m =
  if decide (currentPreviewType m = Some type) then (Normal (), m)
  else (Normal (),
        set_rendering (λ rs, rs ++ [calloutMarkdown type])
          (count_render
             (set_previewEl (λ _, [])
                (set_currentPreviewType (Some type) m)))).
Proof.
  unfold updatePreview, MarkdownRenderer_render. js_unfold.
  by case_decide.
Qed.

Lemma updatePreview_returns `{Host} type m : returns (updatePreview type) m.
Proof.
  unfold returns. rewrite updatePreview_eq. case_decide; by eexists.
Qed.

Lemma updatePreview_same `{Host} type m :
  currentPreviewType m = Some type → exec (updatePreview type) m = m.
Proof.
  intros Hc. unfold exec. rewrite updatePreview_eq. by rewrite decide_True.
Qed.

Lemma updatePreview_other `{Host} type m :
  currentPreviewType m ≠ Some type →
  exec (updatePreview type) m =
  {| editor := editor m; calloutTypes := calloutTypes m; previewEl := [];
     component := component m; currentPreviewType := Some type;
     observer := observer m;
     rendering := rendering m ++ [calloutMarkdown type];
     renderCalls := S (renderCalls m); unhandled := unhandled m |}.
Proof.
  intros Hc. unfold exec. rewrite updatePreview_eq. by rewrite decide_False.
Qed.

Lemma updatePreview_current `{Host} type m :
  currentPreviewType (exec (updatePreview type) m) = Some type.
Proof.
  destruct (decide (currentPreviewType m = Some type)) as [Hc|Hc].
  - by rewrite updatePreview_same.
  - by rewrite updatePreview_other.
Qed.

Lemma run_app `{Host} evs evs' m : run (evs ++ evs') m = run evs' (run evs m).
Proof. apply foldl_app. Qed.

Lemma run_cons `{Host} ev evs m :
  run (ev :: evs) m = run evs (exec (handle ev) m).
Proof. done. Qed.

(** ** C7: a style source that cannot be read *)

(** C7.  When the stylesheet cannot be read, nothing is raised to the
    caller of [parseCalloutTypesFromCSS]: the call returns at once with
    the read in flight, and when the read is rejected the handler
    completes normally too, logs the failure and leaves the scanned
    categories empty (whatever an earlier scan had found), the settings
    as they were. *)
Theorem parse_missing_source (vault : Vault) (p : CalloutInserterPlugin)
    (err : Error) :
  reading p = [] →
  vault (cssPath p) = inl err →
  let called := exec parseCalloutTypesFromCSS p in
  let settled := exec (read_settles vault) called in
  (returns parseCalloutTypesFromCSS p
   ∧ reading called = [cssPath p]
   ∧ cssCalloutTypes called = cssCalloutTypes p
   ∧ console called = console p)
  ∧ returns (read_settles vault) called
  ∧ cssCalloutTypes settled = []
  ∧ reading settled = []
  ∧ settings settled = settings p
  ∧ console settled = console p ++ [LogCouldNotRead err]
  ∧ getAvailableCalloutTypes settled
    = sort (Set_of (defaultCalloutTypes (settings p))).
Proof.
  intros Hreading Hread called settled.
  unfold settled, called, read_settles, parseCalloutTypesFromCSS,
    getAvailableCalloutTypes.
  js_unfold. simpl. rewrite Hreading. simpl. rewrite Hread. simpl.
  repeat split; by eexists.
Qed.

Lemma parse_missing_source_witness :
  let vault : Vault := λ _, inl (HostError (lit "ENOENT")) in
  let settled :=
    exec (read_settles vault) (exec parseCalloutTypesFromCSS sample_plugin) in
  cssCalloutTypes sample_plugin = [lit "custom"]
  ∧ cssCalloutTypes settled = []
  ∧ lit "custom" ∉ getAvailableCalloutTypes settled.
Proof.
  intros vault settled.
  destruct (parse_missing_source vault sample_plugin
              (HostError (lit "ENOENT")) eq_refl eq_refl)
    as (_ & _ & Hcss & _ & _ & _ & Hall).
  split; [reflexivity|]. split; [exact Hcss|].
  unfold settled. rewrite Hall. vm_compute. intros Hin.
  repeat (apply elem_of_cons in Hin as [Hin|Hin]; [discriminate Hin|]).
  by apply not_elem_of_nil in Hin.
Defined.

(** ** C9: no membership check in [updatePreview] *)

(** C9.  [updatePreview] never looks at the picker's category list: for
    any string whatsoever that differs from the category currently
    previewed (the empty string and names outside [calloutTypes] included)
    the call completes normally, records the string as the current
    category, clears the preview container and starts a render of the
    sample document for it. *)
Theorem updatePreview_no_membership_check `{Host} (type : jsstring)
    (m : CalloutSuggestModal) :
  currentPreviewType m ≠ Some type →
  returns (updatePreview type) m
  ∧ currentPreviewType (exec (updatePreview type) m) = Some type
  ∧ previewEl (exec (updatePreview type) m) = []
  ∧ rendering (exec (updatePreview type) m)
    = rendering m ++ [calloutMarkdown type]
  ∧ renderCalls (exec (updatePreview type) m) = S (renderCalls m)
  ∧ calloutTypes (exec (updatePreview type) m) = calloutTypes m.
Proof.
  intros Hc. split; [apply updatePreview_returns|].
  by rewrite updatePreview_other.
Qed.

Lemma updatePreview_no_membership_check_witness :
  ([] ∉ calloutTypes sample_modal)
  ∧ currentPreviewType (exec (updatePreview (H := ascii_host) []) sample_modal)
    = Some []
  ∧ rendering (exec (updatePreview (H := ascii_host) []) sample_modal)
    = [lit "> [!] " ++ [LF] ++ lit "> This is a preview of the  callout."].
Proof.
  pose proof (updatePreview_no_membership_check (H := ascii_host) []
                sample_modal) as Hw.
  destruct Hw as (_ & Hcur & _ & Hren & _); [discriminate|].
  split; [|split; [exact Hcur|exact Hren]].
  vm_compute. intros Hin.
  repeat (apply elem_of_cons in Hin as [Hin|Hin]; [discriminate Hin|]).
  by apply not_elem_of_nil in Hin.
Defined.

(** ** C2: coalescing *)

Lemma settles_renderCalls i r m :
  renderCalls (render_settles i r m) = renderCalls m.
Proof.
  unfold render_settles. destruct (rendering m !! i); [|done]. by destruct r.
Qed.

Lemma settles_current i r m :
  currentPreviewType (render_settles i r m) = currentPreviewType m.
Proof.
  unfold render_settles. destruct (rendering m !! i); [|done]. by destruct r.
Qed.

Lemma traffic_renderCalls `{Host} evs m :
  Forall is_traffic evs →
  renderCalls (run evs m)
  = (renderCalls m + changes (currentPreviewType m) (requested evs))%nat.
Proof.
  intros Hevs; revert m; induction Hevs as [|ev evs Hev Hevs IH]; intros m.
  - simpl. lia.
  - rewrite run_cons, IH. destruct ev; try done; simpl.
    + rewrite updatePreview_current.
      case_decide as Hc.
      * rewrite updatePreview_same by done. lia.
      * rewrite updatePreview_other by done. simpl. lia.
    + unfold exec, modify. simpl.
      by rewrite settles_renderCalls, settles_current.
Qed.

Lemma changes_replicate cur c n :
  changes cur (replicate (S n) c) = if decide (cur = Some c) then 0%nat else 1%nat.
Proof.
  simpl. assert (changes (Some c) (replicate n c) = 0%nat) as ->.
  { induction n as [|n IH]; simpl; [done|]. by rewrite decide_True. }
  case_decide; lia.
Qed.

Lemma requested_showPreview cs : requested (showPreview <$> cs) = cs.
Proof. induction cs as [|c cs IH]; csimpl; [done|]. by rewrite IH. Qed.

Lemma traffic_showPreview cs : Forall is_traffic (showPreview <$> cs).
Proof. induction cs; constructor; done. Qed.

(** C2.  A call of [updatePreview] for the category that is already the
    current one changes nothing at all: no render is started and the
    preview container is left as it is.  So a run of one or more requests
    for the same category starts exactly one render when that category was
    not current before (three requests in a row: one render, as on a new
    picker) and none when it was; and over any sequence of requests, with settlements of renders
    in between, the renders started are exactly the changes of category. *)
Theorem updatePreview_coalesces `{Host} :
  (∀ m c, currentPreviewType m = Some c →
     updatePreview c m = (Normal (), m))
  ∧ (∀ m c n, currentPreviewType m ≠ Some c →
       renderCalls (run (replicate (S n) (showPreview c)) m) = S (renderCalls m))
  ∧ (∀ m c, currentPreviewType m ≠ Some c →
       renderCalls (run [showPreview c; showPreview c; showPreview c] m)
       = S (renderCalls m))
  ∧ (∀ ed types c,
       renderCalls (run [showPreview c; showPreview c; showPreview c]
                      (new_CalloutSuggestModal ed types)) = 1%nat)
  ∧ (∀ m evs, Forall is_traffic evs →
       renderCalls (run evs m)
       = (renderCalls m + changes (currentPreviewType m) (requested evs))%nat).
Proof.
  assert (Hrun : ∀ m c n, currentPreviewType m ≠ Some c →
    renderCalls (run (replicate (S n) (showPreview c)) m) = S (renderCalls m)).
  { intros m c n Hc. rewrite <- fmap_replicate.
    rewrite traffic_renderCalls by apply traffic_showPreview.
    rewrite requested_showPreview, changes_replicate, decide_False by done. lia. }
  repeat split.
  - intros m c Hc. rewrite updatePreview_eq. by rewrite decide_True.
  - exact Hrun.
  - intros m c Hc. apply (Hrun m c 2%nat Hc).
  - intros ed types c.
    by apply (Hrun (new_CalloutSuggestModal ed types) c 2%nat).
  - intros m evs. apply traffic_renderCalls.
Qed.

Lemma updatePreview_coalesces_witness :
  renderCalls
    (run (H := ascii_host)
       [showPreview (lit "note"); showPreview (lit "note");
        showPreview (lit "note")] sample_modal) = 1%nat.
Proof.
  apply (proj1 (proj2 (proj2 (updatePreview_coalesces (H := ascii_host))))
           sample_modal (lit "note")).
  discriminate.
Defined.

(** ** Settlements *)

Lemma render_settles_fulfilled i m source :
  rendering m !! i = Some source →
  render_settles i Fulfilled m =
  {| editor := editor m; calloutTypes := calloutTypes m;
     previewEl := previewEl m ++ [source]; component := component m;
     currentPreviewType := currentPreviewType m; observer := observer m;
     rendering := delete i (rendering m); renderCalls := renderCalls m;
     unhandled := unhandled m |}.
Proof. intros Hi. unfold render_settles. by rewrite Hi. Qed.

Lemma render_settles_rejected i e m source :
  rendering m !! i = Some source →
  render_settles i (Rejected e) m =
  {| editor := editor m; calloutTypes := calloutTypes m;
     previewEl := previewEl m; component := component m;
     currentPreviewType := currentPreviewType m; observer := observer m;
     rendering := delete i (rendering m); renderCalls := renderCalls m;
     unhandled := unhandled m ++ [e] |}.
Proof. intros Hi. unfold render_settles. by rewrite Hi. Qed.

Lemma delete_last {A} (l : list A) x : delete (length l) (l ++ [x]) = l.
Proof. induction l as [|y l IH]; simpl; [done|]. by rewrite IH. Qed.

Lemma lookup_last {A} (l : list A) x : (l ++ [x]) !! length l = Some x.
Proof. induction l as [|y l IH]; simpl; done. Qed.

Lemma exec_settles `{Host} i r m :
  exec (handle (Settles i r)) m = render_settles i r m.
Proof. done. Qed.

Lemma exec_showPreview `{Host} c m :
  exec (handle (showPreview c)) m = exec (updatePreview c) m.
Proof. done. Qed.

(** ** C3: a render that fails *)

(** C3, as the code has it.  When the render started by [updatePreview]
    for a category is rejected, no handler throws: the rejection goes to
    the promise of [updatePreview], which nobody awaits or catches.  The
    preview container is left empty and the session goes on: a later call
    for another category starts its render as usual.  A later call for the
    same category does nothing, since [currentPreviewType] still names it;
    it renders again only after another category has been previewed. *)
Theorem render_failure_is_not_fatal `{Host} (m : CalloutSuggestModal)
    (c : jsstring) (e : Error) :
  currentPreviewType m ≠ Some c →
  let evs := [showPreview c; Settles (length (rendering m)) (Rejected e)] in
  let failed := run evs m in
  run_returns evs m
  ∧ previewEl failed = []
  ∧ rendering failed = rendering m
  ∧ currentPreviewType failed = Some c
  ∧ unhandled failed = unhandled m ++ [e]
  ∧ (∀ d, d ≠ c →
       returns (updatePreview d) failed
       ∧ currentPreviewType (exec (updatePreview d) failed) = Some d
       ∧ rendering (exec (updatePreview d) failed)
         = rendering m ++ [calloutMarkdown d]
       ∧ rendering (run [showPreview d; showPreview c] failed)
         = rendering m ++ [calloutMarkdown d; calloutMarkdown c])
  ∧ updatePreview c failed = (Normal (), failed).
Proof.
  intros Hc evs failed.
  assert (Hfailed : failed =
    {| editor := editor m; calloutTypes := calloutTypes m; previewEl := [];
       component := component m; currentPreviewType := Some c;
       observer := observer m; rendering := rendering m;
       renderCalls := S (renderCalls m); unhandled := unhandled m ++ [e] |}).
  { unfold failed, evs. rewrite !run_cons, exec_showPreview, exec_settles.
    rewrite updatePreview_other by done.
    erewrite render_settles_rejected by (simpl; apply lookup_last).
    simpl. by rewrite delete_last. }
  split.
  { simpl. split; [apply updatePreview_returns|]. split; [|done]. by eexists. }
  rewrite Hfailed. do 4 (split; [done|]). split.
  - intros d Hd. split; [apply updatePreview_returns|].
    split; [apply updatePreview_current|]. split.
    + rewrite updatePreview_other by (simpl; congruence). done.
    + rewrite !run_cons, !exec_showPreview.
      rewrite (updatePreview_other d) by (simpl; congruence).
      rewrite updatePreview_other by (simpl; congruence).
      simpl. by rewrite <- app_assoc.
  - rewrite updatePreview_eq. by rewrite decide_True.
Qed.

Lemma render_failure_is_not_fatal_witness :
  let e := HostError (lit "render failed") in
  let failed :=
    run (H := ascii_host) [showPreview (lit "note"); Settles 0 (Rejected e)]
      sample_modal in
  previewEl failed = [] ∧ unhandled failed = [e].
Proof.
  intros e failed.
  destruct (render_failure_is_not_fatal (H := ascii_host) sample_modal
              (lit "note") e) as (_ & Hp & _ & _ & Hu & _); [discriminate|].
  split; [exact Hp|exact Hu].
Defined.

(** C3 as stated fails for a later call that names the same category: after
    the render for note was rejected, [updatePreview] for note returns
    without starting a render, and the preview container stays empty with
    nothing left in flight. *)
Lemma render_failure_suppresses_same_category :
  let e := HostError (lit "render failed") in
  let failed :=
    run (H := ascii_host) [showPreview (lit "note"); Settles 0 (Rejected e)]
      sample_modal in
  let again := exec (updatePreview (H := ascii_host) (lit "note")) failed in
  again = failed
  ∧ renderCalls again = renderCalls failed
  ∧ rendering again = []
  ∧ previewEl again = []
  ∧ currentPreviewType again = Some (lit "note").
Proof. vm_compute. repeat split. Qed.

(** ** C1: two requests racing *)

Lemma current_is_served_step `{Host} ev m :
  is_fulfilled_traffic ev → current_is_served m →
  current_is_served (exec (handle ev) m).
Proof.
  intros Hev Hm. destruct ev as [| c | |i [|]| |]; try done.
  - rewrite exec_showPreview.
    destruct (decide (currentPreviewType m = Some c)) as [Hc|Hc].
    + by rewrite updatePreview_same.
    + rewrite updatePreview_other by done. intros c' Hc'. simpl in *.
      injection Hc' as <-. rewrite elem_of_app, list_elem_of_singleton.
      by right.
  - rewrite exec_settles. destruct (rendering m !! i) as [source|] eqn:Hi.
    + rewrite (render_settles_fulfilled _ _ _ Hi). intros c Hc. simpl in *.
      specialize (Hm c Hc). rewrite (delete_Permutation _ _ _ Hi) in Hm.
      rewrite <- app_assoc. simpl.
      rewrite elem_of_app, elem_of_cons in *. tauto.
    + unfold render_settles. by rewrite Hi.
Qed.

Lemma current_is_served_run `{Host} evs m :
  Forall is_fulfilled_traffic evs → current_is_served m →
  current_is_served (run evs m).
Proof.
  intros Hevs; revert m; induction Hevs as [|ev evs Hev Hevs IH]; intros m Hm.
  - done.
  - rewrite run_cons. by apply IH, current_is_served_step.
Qed.

(** Once nothing is in flight any more, the preview container holds the
    sample document of the current category. *)
Lemma current_category_is_mounted `{Host} evs ed types c :
  Forall is_fulfilled_traffic evs →
  rendering (run evs (new_CalloutSuggestModal ed types)) = [] →
  currentPreviewType (run evs (new_CalloutSuggestModal ed types)) = Some c →
  calloutMarkdown c ∈ previewEl (run evs (new_CalloutSuggestModal ed types)).
Proof.
  intros Hevs Hr Hc.
  assert (Hs : current_is_served (run evs (new_CalloutSuggestModal ed types))).
  { apply current_is_served_run; [done|]. intros c'. discriminate. }
  specialize (Hs c Hc). by rewrite Hr, app_nil_r in Hs.
Qed.

(** C1, as the code has it.  With a render for A in flight, a request for
    another category B is recorded as the current one at once, clears the
    preview container and starts its own render.  Nothing compares the
    category of a render with the current one when the render settles:
    once both have settled the container holds the sample document of B
    and that of A too, in the order in which the two settled. *)
Theorem race_keeps_last_request_current `{Host} (m : CalloutSuggestModal)
    (A B : jsstring) :
  A ≠ B → currentPreviewType m ≠ Some A → rendering m = [] →
  let raced := run [showPreview A; showPreview B] m in
  let A_then_B := run [Settles 0 Fulfilled; Settles 0 Fulfilled] raced in
  let B_then_A := run [Settles 1 Fulfilled; Settles 0 Fulfilled] raced in
  (currentPreviewType raced = Some B
   ∧ previewEl raced = []
   ∧ rendering raced = [calloutMarkdown A; calloutMarkdown B])
  ∧ (currentPreviewType A_then_B = Some B
     ∧ rendering A_then_B = []
     ∧ previewEl A_then_B = [calloutMarkdown A; calloutMarkdown B])
  ∧ (currentPreviewType B_then_A = Some B
     ∧ rendering B_then_A = []
     ∧ previewEl B_then_A = [calloutMarkdown B; calloutMarkdown A]).
Proof.
  intros HAB HA Hr raced A_then_B B_then_A.
  assert (Hraced : raced =
    {| editor := editor m; calloutTypes := calloutTypes m; previewEl := [];
       component := component m; currentPreviewType := Some B;
       observer := observer m;
       rendering := [calloutMarkdown A; calloutMarkdown B];
       renderCalls := S (S (renderCalls m)); unhandled := unhandled m |}).
  { unfold raced. rewrite !run_cons, !exec_showPreview.
    rewrite (updatePreview_other A) by done.
    rewrite updatePreview_other by (simpl; congruence).
    simpl. by rewrite Hr. }
  unfold A_then_B, B_then_A. rewrite Hraced. done.
Qed.

Lemma race_keeps_last_request_current_witness :
  let raced :=
    run (H := ascii_host) [showPreview (lit "note"); showPreview (lit "tip")]
      sample_modal in
  currentPreviewType raced = Some (lit "tip")
  ∧ previewEl (run (H := ascii_host)
                 [Settles 1 Fulfilled; Settles 0 Fulfilled] raced)
    = [calloutMarkdown (H := ascii_host) (lit "tip");
       calloutMarkdown (H := ascii_host) (lit "note")].
Proof.
  intros raced.
  destruct (race_keeps_last_request_current (H := ascii_host) sample_modal
              (lit "note") (lit "tip"))
    as ((Hcur & _) & _ & (_ & _ & Hp)); [discriminate..|reflexivity|].
  split; [exact Hcur|exact Hp].
Defined.

(** C1 as stated fails: a request for note, a request for tip while the
    first render is in flight, then both renders settle.  The container
    ends with the stale sample document for note in it, next to the one
    for tip; it is not the preview of tip alone. *)
Lemma stale_render_is_mounted :
  let md := calloutMarkdown (H := ascii_host) in
  let settled :=
    run (H := ascii_host)
      [showPreview (lit "note"); showPreview (lit "tip");
       Settles 0 Fulfilled; Settles 0 Fulfilled] sample_modal in
  rendering settled = []
  ∧ currentPreviewType settled = Some (lit "tip")
  ∧ previewEl settled = [md (lit "note"); md (lit "tip")]
  ∧ md (lit "note") ∈ previewEl settled
  ∧ previewEl settled ≠ [md (lit "tip")].
Proof.
  intros md settled.
  assert (Hp : previewEl settled = [md (lit "note"); md (lit "tip")])
    by (vm_compute; reflexivity).
  split; [by vm_compute|]. split; [by vm_compute|]. split; [exact Hp|].
  rewrite Hp. split; [left|discriminate].
Qed.

(** ** C8: closing the picker *)

Lemma onClose_eq `{Host} m :
  onClose m =
  (Normal (),
   set_observer (MutationObserver_disconnect <$> observer m)
     (set_component unloadComponent m)).
Proof.
  unfold onClose, on_observer. js_unfold. simpl.
  destruct m as [? ? ? ? ? [o|] ? ? ?]; done.
Qed.

(** A method call on the observer of a picker that was never opened does
    throw; [onClose] is safe there because it tests the field first. *)
Lemma on_observer_undefined m :
  observer m = None →
  ∃ e, (on_observer MutationObserver_disconnect m).1 = Throw e.
Proof.
  intros Ho. unfold on_observer. js_unfold. rewrite Ho. by eexists.
Qed.




(** ** C6: the row that is selected when the list is filled *)

Lemma renderSuggestion_exec `{Host} item el m :
  exec (renderSuggestion item el) m =
  if is_selected el then exec (updatePreview item) m else m.
Proof.
  unfold renderSuggestion, is_selected. simpl. js_unfold.
  destruct (bool_decide _); [|done].
  rewrite updatePreview_eq. by case_decide.
Qed.

Lemma renderSuggestion_returns `{Host} item el m :
  returns (renderSuggestion item el) m.
Proof.
  unfold renderSuggestion, is_selected. simpl. js_unfold.
  destruct (bool_decide _); [|by eexists].
  rewrite updatePreview_eq. case_decide; by eexists.
Qed.

Lemma exec_materialize `{Host} item el m :
  exec (handle (Materialize item el)) m = exec (renderSuggestion item el) m.
Proof.
  unfold handle. js_unfold.
  by destruct (renderSuggestion item el m) as [[?|?] ?].
Qed.

Lemma returns_materialize `{Host} item el m :
  returns (handle (Materialize item el)) m.
Proof.
  destruct (renderSuggestion_returns item el m) as [a Ha].
  unfold handle. js_unfold.
  destruct (renderSuggestion item el m) as [[?|?] ?]; [by eexists|done].
Qed.

Lemma run_unselected `{Host} rows m :
  Forall (λ row : jsstring * Element, is_selected row.2 = false) rows →
  run (materialize rows) m = m.
Proof.
  intros Hrows; revert m; induction Hrows as [|row rows Hrow Hrows IH];
    intros m; [done|].
  unfold materialize. rewrite fmap_cons, run_cons, exec_materialize.
  rewrite renderSuggestion_exec, Hrow. apply IH.
Qed.

Lemma run_returns_materialize `{Host} rows m :
  run_returns (materialize rows) m.
Proof.
  revert m; induction rows as [|row rows IH]; intros m; [done|].
  split; [apply returns_materialize|apply IH].
Qed.

(** C6.  [renderSuggestion] tests the selected mark of the row it is
    given and, when the mark is there, calls [updatePreview] for the row's
    category before it returns.  So when a list is filled in which one
    row is already marked selected, that row's category is the current
    one and its render is under way as soon as the rows are materialized,
    with no hover and no change of selection; once the render is
    fulfilled the preview container shows that category. *)
Theorem initial_selection_is_previewed `{Host} (ed : Editor)
    (types : list jsstring) (before after : list (jsstring * Element))
    (item : jsstring) (el : Element) :
  is_selected el = true →
  Forall (λ row : jsstring * Element, is_selected row.2 = false) before →
  Forall (λ row : jsstring * Element, is_selected row.2 = false) after →
  let rows := before ++ (item, el) :: after in
  let m0 := exec onOpen (new_CalloutSuggestModal ed types) in
  let opened := run (materialize rows) m0 in
  (∀ m, returns (renderSuggestion item el) m
        ∧ exec (renderSuggestion item el) m = exec (updatePreview item) m
        ∧ currentPreviewType (exec (renderSuggestion item el) m) = Some item)
  ∧ run_returns (materialize rows) m0
  ∧ currentPreviewType opened = Some item
  ∧ rendering opened = [calloutMarkdown item]
  ∧ renderCalls opened = 1%nat
  ∧ previewEl (run [Settles 0 Fulfilled] opened) = [calloutMarkdown item].
Proof.
  intros Hel Hbefore Hafter rows m0 opened.
  assert (Hsel : ∀ m, exec (renderSuggestion item el) m
                      = exec (updatePreview item) m)
    by (intros m; by rewrite renderSuggestion_exec, Hel).
  split.
  { intros m. split; [apply renderSuggestion_returns|]. split; [apply Hsel|].
    rewrite Hsel. apply updatePreview_current. }
  split; [apply run_returns_materialize|].
  assert (Hopened : opened = exec (updatePreview item) m0).
  { unfold opened, rows, materialize. rewrite fmap_app, fmap_cons, run_app.
    fold (materialize before). rewrite run_unselected by done.
    rewrite run_cons, exec_materialize. simpl. rewrite Hsel.
    fold (materialize after). by rewrite run_unselected. }
  rewrite Hopened, updatePreview_other by done. done.
Qed.

(** Three rows, the first one selected. *)
Lemma initial_selection_is_previewed_witness :
  let rows := [(lit "abstract", row_element true);
               (lit "bug", row_element false);
               (lit "custom", row_element false)] in
  let opened := run (H := ascii_host) (materialize rows) sample_modal in
  currentPreviewType opened = Some (lit "abstract")
  ∧ previewEl (run (H := ascii_host) [Settles 0 Fulfilled] opened)
    = [calloutMarkdown (H := ascii_host) (lit "abstract")].
Proof.
  intros rows opened.
  destruct (initial_selection_is_previewed (H := ascii_host) sample_editor
              (getAvailableCalloutTypes sample_plugin) []
              [(lit "bug", row_element false); (lit "custom", row_element false)]
              (lit "abstract") (row_element true))
    as (_ & _ & Hcur & _ & _ & Hp).
  - reflexivity.
  - constructor.
  - repeat constructor.
  - split; [exact Hcur|exact Hp].
Defined.

(** ** The document as lines and as text *)

Lemma sep_lines_app xs ys : sep_lines (xs ++ ys) = sep_lines xs ++ sep_lines ys.
Proof. unfold sep_lines. apply bind_app. Qed.

Lemma sep_lines_cons l ls : sep_lines (l :: ls) = LF :: l ++ sep_lines ls.
Proof. done. Qed.

Lemma sep_lines_join l ls : sep_lines (l :: ls) = LF :: join_lines (l :: ls).
Proof.
  revert l; induction ls as [|l' ls IH]; intros l.
  - rewrite sep_lines_cons. simpl. by rewrite app_nil_r.
  - rewrite sep_lines_cons, IH. done.
Qed.

Lemma join_lines_sep ls : join_lines ls = drop 1 (sep_lines ls).
Proof. destruct ls as [|l ls]; [done|]. by rewrite sep_lines_join. Qed.

Lemma split_lines_nonempty t : split_lines t ≠ [].
Proof.
  destruct t as [|c t]; simpl; [done|].
  destruct (c =? LF); [done|]. by destruct (split_lines t).
Qed.

Lemma join_lines_cons l l' ls :
  join_lines (l :: l' :: ls) = l ++ LF :: join_lines (l' :: ls).
Proof. done. Qed.

Lemma join_split_lines t : join_lines (split_lines t) = t.
Proof.
  induction t as [|c t IH]; [done|]. cbn [split_lines].
  pose proof (split_lines_nonempty t) as Hne.
  destruct (split_lines t) as [|l ls]; [done|].
  destruct (N.eqb_spec c LF) as [->|Hc].
  - by rewrite join_lines_cons, IH.
  - destruct ls as [|l' ls].
    + simpl in *. by rewrite IH.
    + rewrite join_lines_cons in *. by rewrite <- IH.
Qed.

Lemma sep_split_lines t : sep_lines (split_lines t) = LF :: t.
Proof.
  pose proof (split_lines_nonempty t) as Hne.
  pose proof (join_split_lines t) as Hj.
  destruct (split_lines t) as [|l ls]; [done|].
  by rewrite sep_lines_join, Hj.
Qed.

(** A valid position cuts the text in two; inserting in the array of
    lines puts the inserted text between the two parts. *)
Lemma text_at_pos ls p :
  valid_pos ls p →
  ∃ before after,
    join_lines ls = before ++ after
    ∧ length before = posToOffset ls p
    ∧ ∀ text, join_lines (insert_at text p ls) = before ++ text ++ after.
Proof.
  intros (l & Hl & Hch).
  set (pre := take (ch p) l). set (post := drop (ch p) l).
  set (A := sep_lines (take (line p) ls)).
  set (C := sep_lines (drop (S (line p)) ls)).
  assert (Hd : ∀ rest, drop 1 (A ++ LF :: pre ++ rest)
                       = drop 1 (A ++ LF :: pre) ++ rest).
  { intros rest. destruct A; simpl; rewrite ?drop_0; [done|].
    by rewrite <- app_assoc. }
  exists (drop 1 (A ++ LF :: pre)), (post ++ C). split; [|split].
  - rewrite join_lines_sep.
    rewrite <- (take_drop_middle ls (line p) l Hl) at 1.
    rewrite sep_lines_app, sep_lines_cons. fold A C.
    rewrite <- (take_drop (ch p) l). fold pre post.
    rewrite <- Hd. by rewrite <- app_assoc.
  - unfold posToOffset. rewrite join_lines_sep, sep_lines_app. fold A.
    rewrite !length_drop, !length_app. simpl. unfold pre.
    rewrite length_take. lia.
  - intros text. unfold insert_at. rewrite Hl. simpl. fold pre post.
    rewrite join_lines_sep, !sep_lines_app, sep_split_lines. fold A C.
    rewrite <- Hd. simpl. by rewrite <- !app_assoc.
Qed.

Lemma insert_at_text text from ls :
  valid_pos ls from →
  join_lines (insert_at text from ls)
  = take (posToOffset ls from) (join_lines ls)
    ++ text ++ drop (posToOffset ls from) (join_lines ls).
Proof.
  intros Hv. destruct (text_at_pos ls from Hv) as (b & a & Hj & Hlen & Hins).
  rewrite Hins, Hj, <- Hlen. by rewrite take_app_length, drop_app_length.
Qed.

Lemma split_lines_app u v :
  LF ∉ u → split_lines (u ++ LF :: v) = u :: split_lines v.
Proof.
  induction u as [|c u IH]; intros Hu; [done|].
  apply not_elem_of_cons in Hu as [Hc Hu]. cbn [app split_lines].
  destruct (N.eqb_spec c LF) as [->|_]; [done|]. by rewrite IH.
Qed.

Lemma split_lines_one u : LF ∉ u → split_lines u = [u].
Proof.
  induction u as [|c u IH]; intros Hu; [done|].
  apply not_elem_of_cons in Hu as [Hc Hu]. cbn [split_lines].
  destruct (N.eqb_spec c LF) as [->|_]; [done|]. by rewrite IH.
Qed.

(** ** C4 and C10: the insertion *)

Lemma insertCallout_eq `{Host} type m :
  insertCallout type m =
  (Normal (),
   set_editor
     (λ e, Editor_focus
             (Editor_setCursor
                {| line := line (cursor (editor m)) + 1; ch := 2 |}
                (Editor_replaceRange (calloutText type)
                   (cursor (editor m)) e))) m).
Proof. done. Qed.

(** For a category without a line break, in a document whose lines hold
    none: the line of the cursor is cut in two, the marker closes the
    first part and the quote marker opens the second, so that line L+1,
    column 2 is where the content of the new line begins. *)
Lemma insertCallout_lines `{Host} t m l :
  lines (editor m) !! line (cursor (editor m)) = Some l →
  LF ∉ l → LF ∉ t →
  lines (editor (exec (insertCallout t) m))
  = take (line (cursor (editor m))) (lines (editor m))
    ++ [take (ch (cursor (editor m))) l ++ lit "> [!" ++ t ++ lit "]";
        lit "> " ++ drop (ch (cursor (editor m))) l]
    ++ drop (S (line (cursor (editor m)))) (lines (editor m)).
Proof.
  intros Hl HLl HLt. unfold exec. rewrite insertCallout_eq.
  cbn [snd set_editor editor lines Editor_focus Editor_setCursor
       Editor_replaceRange].
  unfold insert_at. rewrite Hl. cbn [from_option id]. do 2 f_equal.
  set (pre := take (ch (cursor (editor m))) l).
  set (post := drop (ch (cursor (editor m))) l).
  assert (LF ∉ pre) by (intros Hin; by apply HLl, (subseteq_take _ _ _ Hin)).
  assert (LF ∉ post) by (intros Hin; by apply HLl, (subseteq_drop _ _ _ Hin)).
  unfold calloutText.
  replace (pre ++ (lit "> [!" ++ t ++ lit "]" ++ [LF] ++ lit "> ") ++ post)
    with ((pre ++ lit "> [!" ++ t ++ lit "]") ++ LF :: lit "> " ++ post)
    by (by rewrite <- !app_assoc).
  rewrite split_lines_app, split_lines_one; [done| |].
  - apply not_elem_of_app. split; [|done].
    intros Hin. repeat (apply elem_of_cons in Hin as [Hin|Hin]; [done|]).
    by apply not_elem_of_nil in Hin.
  - rewrite !not_elem_of_app. repeat split; try done.
    + intros Hin. repeat (apply elem_of_cons in Hin as [Hin|Hin]; [done|]).
      by apply not_elem_of_nil in Hin.
    + intros Hin. repeat (apply elem_of_cons in Hin as [Hin|Hin]; [done|]).
      by apply not_elem_of_nil in Hin.
Qed.

(** C4.  [insertCallout] for a category [t], with the cursor at line L and
    column C, makes three calls on the editor, in this order: it inserts
    the text made of the marker, [t], the closing bracket, a line break
    and the quote marker at the cursor position, it sets the cursor to
    line L+1, column 2, and it focuses the editor.  In the document the
    snippet then stands at the offset of the old cursor, between the text
    before and the text after it. *)
Theorem insertCallout_snippet_and_cursor `{Host} (t : jsstring)
    (m : CalloutSuggestModal) :
  valid_pos (lines (editor m)) (cursor (editor m)) →
  let pos := cursor (editor m) in
  let snippet := lit "> [!" ++ t ++ lit "]" ++ [LF] ++ lit "> " in
  let text := join_lines (lines (editor m)) in
  let off := posToOffset (lines (editor m)) pos in
  let after := {| line := line pos + 1; ch := 2 |} in
  let e' := editor (exec (insertCallout t) m) in
  returns (insertCallout t) m
  ∧ calls e' = calls (editor m)
               ++ [CallReplaceRange snippet pos; CallSetCursor after; CallFocus]
  ∧ join_lines (lines e') = take off text ++ snippet ++ drop off text
  ∧ cursor e' = after
  ∧ hasFocus e' = true.
Proof.
  intros Hv pos snippet text off after e'.
  unfold e', exec, returns. rewrite insertCallout_eq. simpl.
  split; [by eexists|]. split; [by rewrite <- !app_assoc|].
  split; [|done]. by apply insert_at_text.
Qed.

(** Category warning, cursor in line 3. *)
Lemma insertCallout_snippet_and_cursor_witness :
  let e' := editor (exec (insertCallout (H := ascii_host) (lit "warning"))
                      sample_modal) in
  calls e' = [CallReplaceRange (lit "> [!warning]" ++ [LF] ++ lit "> ")
                {| line := 3; ch := 4 |};
              CallSetCursor {| line := 4; ch := 2 |}; CallFocus]
  ∧ cursor e' = {| line := 4; ch := 2 |}
  ∧ lines e' = [lit "# Title"; []; lit "Some text.";
                lit "More> [!warning]"; lit ">  text here."; lit "The end."].
Proof.
  intros e'.
  destruct (insertCallout_snippet_and_cursor (H := ascii_host) (lit "warning")
              sample_modal) as (_ & Hcalls & _ & Hcur & _).
  - exists (lit "More text here."). split; [reflexivity|simpl; lia].
  - split; [exact Hcalls|]. split; [exact Hcur|reflexivity].
Defined.

(** C10.  [insertCallout] changes the document by the insertion alone:
    the text before the offset of the cursor is unchanged, the text from
    that offset on is unchanged and moved behind the snippet, and the
    snippet stands in between.  The picker's category list and
    everything that belongs to the preview are as before, and so is the
    plugin with its settings and scanned categories. *)
Theorem insertCallout_frame `{Host} (t : jsstring) (m : CalloutSuggestModal) :
  valid_pos (lines (editor m)) (cursor (editor m)) →
  let m' := exec (insertCallout t) m in
  let text := join_lines (lines (editor m)) in
  let text' := join_lines (lines (editor m')) in
  let off := posToOffset (lines (editor m)) (cursor (editor m)) in
  let n := length (calloutText t) in
  ((∀ i, (i < off)%nat → text' !! i = text !! i)
   ∧ (∀ i, (i < n)%nat → text' !! (off + i)%nat = calloutText t !! i)
   ∧ (∀ i, (off ≤ i)%nat → text' !! (i + n)%nat = text !! i)
   ∧ length text' = (length text + n)%nat)
  ∧ (calloutTypes m' = calloutTypes m
     ∧ previewEl m' = previewEl m
     ∧ currentPreviewType m' = currentPreviewType m
     ∧ rendering m' = rendering m
     ∧ renderCalls m' = renderCalls m
     ∧ component m' = component m
     ∧ observer m' = observer m
     ∧ unhandled m' = unhandled m)
  ∧ (∀ w, session w = Some m →
       plugin (in_session (Choose t) w) = plugin w
       ∧ session (in_session (Choose t) w) = Some m').
Proof.
  intros Hv m' text text' off n.
  destruct (text_at_pos _ _ Hv) as (b & a & Hj & Hlen & Hins).
  assert (Htext' : text' = b ++ calloutText t ++ a).
  { unfold text', m', exec. rewrite insertCallout_eq. simpl. apply Hins. }
  assert (Htext : text = b ++ a) by exact Hj.
  fold off in Hlen.
  assert (Hn : length (calloutText t) = n) by done.
  split; [|split; [done|]].
  - clearbody off n text text'. subst text text'. repeat split.
    + intros i Hi. rewrite !lookup_app_l by lia. done.
    + intros i Hi. rewrite lookup_app_r by lia.
      rewrite lookup_app_l by lia. f_equal. lia.
    + intros i Hi. rewrite !lookup_app_r by lia. f_equal. lia.
    + rewrite !length_app. lia.
  - intros w Hw. unfold in_session. rewrite Hw. done.
Qed.

Lemma insertCallout_frame_witness :
  let w := {| plugin := sample_plugin; session := Some sample_modal |} in
  let w' := in_session (H := ascii_host) (Choose (lit "warning")) w in
  plugin w' = sample_plugin
  ∧ (calloutTypes <$> session w') = Some (calloutTypes sample_modal)
  ∧ (previewEl <$> session w') = Some [].
Proof.
  intros w w'.
  destruct (insertCallout_frame (H := ascii_host) (lit "warning") sample_modal)
    as (_ & (Htypes & Hprev & _) & Hw).
  - exists (lit "More text here."). split; [reflexivity|simpl; lia].
  - destruct (Hw w eq_refl) as [Hplugin Hsession].
    split; [exact Hplugin|]. unfold w'. rewrite Hsession.
    split; [exact (f_equal Some Htypes)|exact (f_equal Some Hprev)].
Defined.

(** * Further properties of the code *)

(** ** The scan of the stylesheet *)

Lemma strip_prefix_Some p s r : strip_prefix p s = Some r → s = p ++ r.
Proof.
  revert s; induction p as [|a p IH]; intros [|b s]; simpl; try done.
  - by intros [= ->].
  - by intros [= ->].
  - destruct (N.eqb_spec a b) as [->|]; [|done].
    intros Hs. by rewrite (IH _ Hs).
Qed.

Lemma strip_prefix_app p r : strip_prefix p (p ++ r) = Some r.
Proof.
  induction p as [|a p IH]; simpl; [done|]. by rewrite N.eqb_refl.
Qed.

Lemma span_nonquote_spec s run rest :
  span_nonquote s = (run, rest) →
  s = run ++ rest
  ∧ Forall (λ c, is_quote c = false) run
  ∧ match rest with [] => True | c :: _ => is_quote c = true end.
Proof.
  revert run rest; induction s as [|c s IH]; intros run rest; simpl.
  - by intros [= <- <-].
  - destruct (is_quote c) eqn:Hc.
    + by intros [= <- <-].
    + destruct (span_nonquote s) as [run' rest'].
      intros [= <- <-]. destruct (IH _ _ eq_refl) as (-> & Hrun & Hrest).
      split; [done|]. split; [by constructor|done].
Qed.

Lemma span_nonquote_app run q rest :
  Forall (λ c, is_quote c = false) run → is_quote q = true →
  span_nonquote (run ++ q :: rest) = (run, q :: rest).
Proof.
  intros Hrun Hq. induction Hrun as [|c run Hc Hrun IH]; simpl.
  - by rewrite Hq.
  - by rewrite Hc, IH.
Qed.

Lemma callout_rule_length q name q' :
  length (callout_rule q name q') = (14 + 1 + length name + 2)%nat.
Proof.
  unfold callout_rule. rewrite length_app. simpl. rewrite length_app. simpl.
  lia.
Qed.

Lemma callout_rule_app q name q' post :
  callout_rule q name q' ++ post
  = lit "[data-callout=" ++ [q] ++ name ++ [q'; 93] ++ post.
Proof.
  unfold callout_rule. rewrite <- !app_assoc. cbn [app].
  rewrite <- !app_assoc. reflexivity.
Qed.

Lemma match_here_Some s cap len :
  match_here s = Some (cap, len) →
  ∃ q q' post,
    is_quote q = true ∧ is_quote q' = true
    ∧ cap ≠ [] ∧ Forall (λ c, is_quote c = false) cap
    ∧ s = callout_rule q cap q' ++ post
    ∧ len = length (callout_rule q cap q').
Proof.
  unfold match_here.
  destruct (strip_prefix (lit "[data-callout=") s) as [[|q s1]|] eqn:Hp;
    try done.
  destruct (is_quote q) eqn:Hq; [|done].
  destruct (span_nonquote s1) as [[|c run] [|q' [|b rest]]] eqn:Hspan;
    try done.
  destruct (is_quote q') eqn:Hq'; [|done]. simpl.
  destruct (N.eqb_spec b 93) as [->|]; [|done].
  intros [= <- <-].
  apply strip_prefix_Some in Hp as ->.
  apply span_nonquote_spec in Hspan as (-> & Hrun & _).
  exists q, q', rest. do 4 (split; [done|]). split.
  - unfold callout_rule. rewrite <- !app_assoc. cbn [app].
    rewrite <- ?app_assoc. reflexivity.
  - transitivity (14 + 1 + length (c :: run) + 2)%nat;
      [simpl; lia|symmetry; apply (callout_rule_length q (c :: run) q')].
Qed.

Lemma match_here_rule q name q' post :
  is_quote q = true → is_quote q' = true →
  name ≠ [] → Forall (λ c, is_quote c = false) name →
  match_here (callout_rule q name q' ++ post)
  = Some (name, length (callout_rule q name q')).
Proof.
  intros Hq Hq' Hne Hname.
  rewrite (callout_rule_length q name q'). unfold match_here, callout_rule.
  rewrite <- app_assoc, strip_prefix_app. cbn [app]. rewrite Hq.
  rewrite <- app_assoc. cbn [app].
  rewrite span_nonquote_app by done.
  destruct name as [|c name]; [done|]. by rewrite Hq', N.eqb_refl.
Qed.

Lemma matchAll_from_skip u v :
  matchAll_from (length u) (u ++ v) = matchAll_from 0 v.
Proof. induction u as [|c u IH]; simpl; [done|]. apply IH. Qed.

Lemma match_here_other c s : c ≠ 91 → match_here (c :: s) = None.
Proof.
  intros Hc. unfold match_here.
  change (lit "[data-callout=") with (91 :: lit "data-callout=").
  cbn [strip_prefix]. destruct (N.eqb_spec 91 c) as [<-|]; done.
Qed.

Lemma matchAll_from_no_bracket pre v :
  91 ∉ pre → matchAll_from 0 (pre ++ v) = matchAll_from 0 v.
Proof.
  induction pre as [|c pre IH]; intros Hpre; [done|].
  apply not_elem_of_cons in Hpre as [Hc Hpre].
  cbn [app matchAll_from]. rewrite match_here_other by done. by apply IH.
Qed.

Lemma matchAll_from_sound skip s name :
  name ∈ matchAll_from skip s →
  ∃ pre q q' post,
    is_quote q = true ∧ is_quote q' = true
    ∧ name ≠ [] ∧ Forall (λ c, is_quote c = false) name
    ∧ s = pre ++ callout_rule q name q' ++ post.
Proof.
  revert skip; induction s as [|c s IH]; intros skip; simpl.
  - intros Hin. by apply not_elem_of_nil in Hin.
  - assert (Hrest : ∀ k, name ∈ matchAll_from k s →
      ∃ pre q q' post,
        is_quote q = true ∧ is_quote q' = true
        ∧ name ≠ [] ∧ Forall (λ c, is_quote c = false) name
        ∧ c :: s = pre ++ callout_rule q name q' ++ post).
    { intros k Hin.
      destruct (IH _ Hin) as (pre & q & q' & post & Hq & Hq' & Hne & Hn & ->).
      exists (c :: pre), q, q', post. done. }
    destruct skip as [|k]; [|apply Hrest].
    destruct (match_here (c :: s)) as [[cap len]|] eqn:Hm; [|apply Hrest].
    intros Hin. apply elem_of_cons in Hin as [->|Hin]; [|by eapply Hrest].
    apply match_here_Some in Hm
      as (q & q' & post & Hq & Hq' & Hne & Hcap & Hs & _).
    exists [], q, q', post. done.
Qed.

(** X1.  Every name the scan captures is non-empty, holds no quote
    character and stands in the stylesheet inside the pattern: after the
    literal with an opening quote, before a closing quote and a bracket. *)
Theorem matchAll_sound (content name : jsstring) :
  name ∈ matchAll content →
  name ≠ []
  ∧ Forall (λ c, c ≠ 34 ∧ c ≠ 39) name
  ∧ ∃ pre q q' post,
      (q = 34 ∨ q = 39) ∧ (q' = 34 ∨ q' = 39)
      ∧ content = pre ++ lit "[data-callout=" ++ [q] ++ name ++ [q'; 93]
                  ++ post.
Proof.
  assert (Hquote : ∀ c, is_quote c = true → c = 34 ∨ c = 39).
  { intros c. unfold is_quote.
    destruct (N.eqb_spec c 34), (N.eqb_spec c 39); auto; done. }
  assert (Hnoquote : ∀ c, is_quote c = false → c ≠ 34 ∧ c ≠ 39).
  { intros c. unfold is_quote.
    destruct (N.eqb_spec c 34), (N.eqb_spec c 39); auto; done. }
  intros Hin.
  destruct (matchAll_from_sound _ _ _ Hin)
    as (pre & q & q' & post & Hq & Hq' & Hne & Hn & ->).
  split; [done|]. split; [exact (Forall_impl _ _ _ Hn Hnoquote)|].
  exists pre, q, q', post. split; [auto|]. split; [auto|].
  by rewrite callout_rule_app.
Qed.

Lemma matchAll_sound_witness :
  lit "x-y" ≠ []
  ∧ Forall (λ c, c ≠ 34 ∧ c ≠ 39) (lit "x-y")
  ∧ ∃ pre q q' post,
      (q = 34 ∨ q = 39) ∧ (q' = 34 ∨ q' = 39)
      ∧ lit ".a{} [data-callout='x-y'] {}"
        = pre ++ lit "[data-callout=" ++ [q] ++ lit "x-y" ++ [q'; 93] ++ post.
Proof.
  apply (matchAll_sound (lit ".a{} [data-callout='x-y'] {}") (lit "x-y")).
  vm_compute. left.
Defined.

Lemma matchAll_from_rule pre q name q' post :
  91 ∉ pre → is_quote q = true → is_quote q' = true →
  name ≠ [] → Forall (λ c, is_quote c = false) name →
  matchAll_from 0 (pre ++ callout_rule q name q' ++ post)
  = name :: matchAll_from 0 post.
Proof.
  intros Hpre Hq Hq' Hne Hname.
  rewrite matchAll_from_no_bracket by done.
  pose proof (match_here_rule q name q' post Hq Hq' Hne Hname) as Hm.
  pose proof (callout_rule_length q name q') as Hlen.
  pose proof (matchAll_from_skip (callout_rule q name q') post) as Hskip.
  destruct (callout_rule q name q') as [|c rule] eqn:Hrule;
    [simpl in Hlen; lia|].
  cbn [app matchAll_from]. cbn [app] in Hm. rewrite Hm.
  f_equal. simpl in Hskip |- *. by rewrite Nat.sub_0_r.
Qed.

(** X2.  Text without an opening bracket is passed over, a rule for a
    non-empty name without quotes is captured whichever of the two quote
    characters opens and closes it, and the scan goes on right behind the
    rule. *)
Theorem matchAll_rule (pre name post : jsstring) (q q' : code_unit) :
  91 ∉ pre → (q = 34 ∨ q = 39) → (q' = 34 ∨ q' = 39) →
  name ≠ [] → Forall (λ c, c ≠ 34 ∧ c ≠ 39) name →
  matchAll (pre ++ lit "[data-callout=" ++ [q] ++ name ++ [q'; 93] ++ post)
  = name :: matchAll post.
Proof.
  intros Hpre Hq Hq' Hne Hname.
  assert (is_quote q = true) by (by destruct Hq as [->| ->]).
  assert (is_quote q' = true) by (by destruct Hq' as [->| ->]).
  assert (Forall (λ c, is_quote c = false) name).
  { eapply Forall_impl; [exact Hname|]. intros c [H34 H39]. unfold is_quote.
    destruct (N.eqb_spec c 34), (N.eqb_spec c 39); done. }
  unfold matchAll. rewrite <- callout_rule_app.
  by apply matchAll_from_rule.
Qed.

Lemma matchAll_rule_witness :
  matchAll (lit ".callout" ++ lit "[data-callout=" ++ [34] ++ lit "custom"
            ++ [39; 93] ++ lit " { color: red }")
  = [lit "custom"].
Proof.
  apply (matchAll_rule (lit ".callout") (lit "custom")
           (lit " { color: red }") 34 39).
  - vm_compute. intros Hin.
    repeat (apply elem_of_cons in Hin as [Hin|Hin]; [discriminate Hin|]).
    by apply not_elem_of_nil in Hin.
  - by left.
  - by right.
  - discriminate.
  - repeat constructor; discriminate.
Defined.

(** ** A scan that succeeds, the settings, and start-up *)

Lemma exec_eq {S A} (m : JS S A) s r s' : m s = (r, s') → exec m s = s'.
Proof. unfold exec. by intros ->. Qed.

Lemma returns_eq {S A} (m : JS S A) s a s' :
  m s = (Normal a, s') → returns m s.
Proof. unfold returns. intros ->. by eexists. Qed.

Lemma read_settles_fulfilled vault p content :
  reading p = [] → vault (cssPath p) = inr content →
  read_settles vault (exec parseCalloutTypesFromCSS p)
  = (Normal (),
     {| configDir := configDir p; settings := settings p;
        cssCalloutTypes := Set_of (matchAll content); reading := [];
        console := console p ++ [LogFound (Set_of (matchAll content))] |}).
Proof.
  intros Hreading Hread.
  unfold read_settles, parseCalloutTypesFromCSS, parse_settled,
    parse_fulfilled. js_unfold.
  cbn [snd reading set_reading]. rewrite Hreading. cbn [app].
  rewrite Hread. reflexivity.
Qed.

(** X3.  When the read of the stylesheet succeeds, the handler completes
    normally and the scanned categories become exactly the names captured
    in the text just read, each once and never the empty name; what an
    earlier scan had found is dropped.  The picker then offers these names
    and the configured ones, and the result is logged. *)
Theorem scan_replaces_categories (vault : Vault) (p : CalloutInserterPlugin)
    (content : jsstring) :
  reading p = [] →
  vault (cssPath p) = inr content →
  let called := exec parseCalloutTypesFromCSS p in
  let settled := exec (read_settles vault) called in
  returns (read_settles vault) called
  ∧ (∀ x, x ∈ cssCalloutTypes settled ↔ x ∈ matchAll content)
  ∧ NoDup (cssCalloutTypes settled)
  ∧ ([] ∉ cssCalloutTypes settled)
  ∧ (∀ x, x ∈ getAvailableCalloutTypes settled
          ↔ x ∈ matchAll content ∨ x ∈ defaultCalloutTypes (settings p))
  ∧ settings settled = settings p
  ∧ console settled = console p ++ [LogFound (cssCalloutTypes settled)].
Proof.
  intros Hreading Hread called settled.
  pose proof (read_settles_fulfilled vault p content Hreading Hread) as Heq.
  unfold settled, called. rewrite (exec_eq _ _ _ _ Heq).
  split; [exact (returns_eq _ _ _ _ Heq)|].
  cbn [cssCalloutTypes settings console].
  split; [intros x; apply Set_of_elem|]. split; [apply Set_of_NoDup|].
  split.
  { rewrite Set_of_elem. intros Hin.
    by destruct (matchAll_from_sound _ _ _ Hin) as (? & ? & ? & ? & _ & _ & ? & _). }
  split; [|done].
  intros x. rewrite getAvailableCalloutTypes_elem. cbn [cssCalloutTypes settings].
  by rewrite Set_of_elem.
Qed.

Lemma scan_replaces_categories_witness :
  let vault : Vault :=
    λ _, inr (lit "[data-callout='idea'] {} [data-callout='idea'] {}") in
  let settled :=
    exec (read_settles vault) (exec parseCalloutTypesFromCSS sample_plugin) in
  cssCalloutTypes sample_plugin = [lit "custom"]
  ∧ cssCalloutTypes settled = [lit "idea"]
  ∧ lit "idea" ∈ getAvailableCalloutTypes settled.
Proof.
  intros vault settled.
  destruct (scan_replaces_categories vault sample_plugin
              (lit "[data-callout='idea'] {} [data-callout='idea'] {}")
              eq_refl eq_refl) as (_ & _ & _ & _ & Hall & _).
  split; [reflexivity|]. split; [vm_compute; reflexivity|].
  apply Hall. left. vm_compute. left.
Defined.

(** X4.  [loadSettings] takes the saved list of default categories in
    place of the built-in one, never merged with it: the picker then offers
    the scanned names and the saved ones only.  With nothing saved, or an
    object saved without the key, the built-in defaults are used; and what
    [saveSettings] hands to the store loads back as the same settings. *)
Theorem loadSettings_replaces_defaults (p : CalloutInserterPlugin) :
  (∀ data, returns (loadSettings data) p)
  ∧ settings (exec (loadSettings None) p) = DEFAULT_SETTINGS
  ∧ settings (exec (loadSettings
                      (Some {| saved_defaultCalloutTypes := None |})) p)
    = DEFAULT_SETTINGS
  ∧ (∀ types x,
       x ∈ getAvailableCalloutTypes
             (exec (loadSettings
                      (Some {| saved_defaultCalloutTypes := Some types |})) p)
       ↔ x ∈ cssCalloutTypes p ∨ x ∈ types)
  ∧ (∀ p', ∃ data,
       (saveSettings p).1 = Normal data
       ∧ exec saveSettings p = p
       ∧ settings (exec (loadSettings (Some data)) p') = settings p).
Proof.
  split; [intros data; by eexists|]. split; [done|]. split; [done|].
  split.
  - intros types x. by rewrite getAvailableCalloutTypes_elem.
  - intros p'. eexists. split; [reflexivity|]. split; [done|].
    by destruct p as [? [?] ? ? ?].
Qed.

(** X5.  A picker lists the categories as they are when the command runs.
    Opened after [onload] but before the scan has settled, it offers the
    configured names only; the settlement of the scan leaves the open
    picker as it is; a picker opened afterwards offers the scanned names
    as well. *)
Theorem picker_lists_categories_at_open (p : CalloutInserterPlugin)
    (data : option SavedData) (vault : Vault) (content : jsstring)
    (ed ed' : Editor) :
  cssCalloutTypes p = [] → reading p = [] →
  vault (cssPath p) = inr content →
  let w1 := editorCallback ed
              (plugin_do (onload data) {| plugin := p; session := None |}) in
  let w2 := plugin_do (read_settles vault) w1 in
  let w3 := editorCallback ed' w2 in
  (calloutTypes <$> session w1)
  = Some (sort (Set_of (defaultCalloutTypes
                          (Object_assign DEFAULT_SETTINGS data))))
  ∧ session w2 = session w1
  ∧ ∃ m, session w3 = Some m
         ∧ ∀ x, x ∈ calloutTypes m
                ↔ x ∈ matchAll content
                  ∨ x ∈ defaultCalloutTypes
                          (Object_assign DEFAULT_SETTINGS data).
Proof.
  intros Hcss Hreading Hread w1 w2 w3.
  set (loaded := exec (loadSettings data) p).
  assert (Hloaded : plugin w1 = exec parseCalloutTypesFromCSS loaded) by done.
  split.
  { unfold w1, editorCallback, plugin_do, getAvailableCalloutTypes. simpl.
    by rewrite Hcss. }
  split; [done|].
  exists (exec onOpen
            (new_CalloutSuggestModal ed' (getAvailableCalloutTypes (plugin w2)))).
  split; [done|]. intros x.
  change (calloutTypes _) with (getAvailableCalloutTypes (plugin w2)).
  change (plugin w2) with (exec (read_settles vault) (plugin w1)).
  rewrite Hloaded.
  rewrite (exec_eq _ _ _ _ (read_settles_fulfilled vault loaded content
                              Hreading Hread)).
  rewrite getAvailableCalloutTypes_elem.
  cbn [cssCalloutTypes settings]. by rewrite Set_of_elem.
Qed.

Lemma picker_lists_categories_at_open_witness :
  let p := {| configDir := lit ".obsidian"; settings := DEFAULT_SETTINGS;
              cssCalloutTypes := []; reading := []; console := [] |} in
  let vault : Vault := λ _, inr (lit "[data-callout='idea'] {}") in
  let w1 := editorCallback sample_editor
              (plugin_do (onload None) {| plugin := p; session := None |}) in
  (calloutTypes <$> session w1)
  = Some (sort (Set_of (defaultCalloutTypes DEFAULT_SETTINGS)))
  ∧ session (plugin_do (read_settles vault) w1) = session w1.
Proof.
  intros p vault w1.
  destruct (picker_lists_categories_at_open p None vault
              (lit "[data-callout='idea'] {}") sample_editor sample_editor
              eq_refl eq_refl eq_refl) as (H1 & H2 & _).
  split; [exact H1|exact H2].
Defined.

(** ** The observer's callback *)

Lemma run_showPreview_cons `{Host} c cs m :
  run (showPreview <$> c :: cs) m
  = run (showPreview <$> cs) (exec (updatePreview c) m).
Proof. done. Qed.

Lemma observer_callback_eq `{Host} ms m :
  observer_callback ms m
  = (Normal (), run (showPreview <$> omap requested_by ms) m).
Proof.
  unfold observer_callback. revert m.
  induction ms as [|mutation ms IH]; intros m; [done|].
  cbn [for_of omap list_omap]. unfold requested_by at 1.
  unfold mbind at 1. unfold JS_bind.
  destruct (bool_decide (mutation_type mutation = lit "attributes")
            && bool_decide (attributeName mutation = Some (lit "class")));
    cbn [andb]; [|apply IH].
  destruct (is_selected (target mutation)); [|apply IH].
  destruct (dataset_calloutType (target mutation)) as [[|c type]|];
    try apply IH.
  rewrite fmap_cons, run_cons, exec_showPreview.
  rewrite updatePreview_eq. unfold exec. rewrite updatePreview_eq.
  case_decide; apply IH.
Qed.

Lemma run_showPreview_current `{Host} cs m :
  currentPreviewType (run (showPreview <$> cs) m)
  = from_option Some (currentPreviewType m) (last cs).
Proof.
  revert m; induction cs as [|c cs IH]; intros m; [done|].
  rewrite run_showPreview_cons, IH, updatePreview_current, last_cons.
  by destruct (last cs).
Qed.

(** X6.  The observer's callback never throws, and a batch of mutation
    records acts as the sequence of preview requests of the records that
    report a class change on a selected row with a non-empty stored
    category: afterwards the current category is that of the last such
    record, or the one before the batch when there is none, and no more
    renders were started than there are such records. *)
Theorem observer_previews_last_selected `{Host}
    (ms : list MutationRecord) (m : CalloutSuggestModal) :
  returns (observer_callback ms) m
  ∧ exec (observer_callback ms) m
    = run (showPreview <$> omap requested_by ms) m
  ∧ currentPreviewType (exec (observer_callback ms) m)
    = from_option Some (currentPreviewType m) (last (omap requested_by ms))
  ∧ (renderCalls (exec (observer_callback ms) m)
     ≤ renderCalls m + length (omap requested_by ms))%nat.
Proof.
  pose proof (observer_callback_eq ms m) as Heq.
  rewrite (exec_eq _ _ _ _ Heq).
  split; [exact (returns_eq _ _ _ _ Heq)|]. split; [done|].
  split; [apply run_showPreview_current|].
  clear Heq. generalize (omap requested_by ms). intros cs. revert m.
  induction cs as [|c cs IH]; intros m; [simpl; lia|].
  rewrite run_showPreview_cons. etrans; [apply IH|].
  destruct (decide (currentPreviewType m = Some c)) as [Hc|Hc].
  - rewrite updatePreview_same by done. simpl. lia.
  - rewrite updatePreview_other by done. simpl. lia.
Qed.

Lemma renderSuggestion_row `{Host} item el m :
  (renderSuggestion item el m).1
  = Normal {| classList := classList el; dataset_calloutType := Some item;
              children := children el ++ [item];
              mouseenter := mouseenter el ++ [item] |}.
Proof.
  unfold renderSuggestion, is_selected. cbn [classList]. js_unfold.
  destruct (bool_decide _); [|done].
  rewrite updatePreview_eq. by case_decide.
Qed.

Lemma is_selected_mark_selected el : is_selected (mark_selected el) = true.
Proof.
  unfold is_selected, mark_selected. cbn [classList].
  apply bool_decide_eq_true. apply elem_of_app. right.
  by apply list_elem_of_singleton.
Qed.

Lemma handle_Mutations_observing `{Host} ms m :
  observer m = Some {| observing := true |} →
  handle (Mutations ms) m = observer_callback ms m.
Proof. intros Ho. unfold handle. js_unfold. by rewrite Ho. Qed.

(** X7.  What [renderSuggestion] stores in a row is what the observer
    reads back.  The callback reads the target of a record when the batch
    is delivered.  If the target then carries the mark of the selected
    row and the category that [renderSuggestion] stored for an item that
    is not the empty string, the item becomes the current one, whatever
    records came before it in the batch, provided none after it asks for
    another preview.  If the target no longer carries the mark when the
    batch is delivered, the record changes nothing. *)
Theorem keyboard_selection_previews_row `{Host} (item : jsstring)
    (el row tgt : Element) (m0 m : CalloutSuggestModal)
    (before after : list MutationRecord) :
  item ≠ [] →
  (renderSuggestion item el m0).1 = Normal row →
  dataset_calloutType tgt = dataset_calloutType row →
  observer m = Some {| observing := true |} →
  Forall (λ mutation, requested_by mutation = None) after →
  let ms := before ++ class_mutation tgt :: after in
  (is_selected tgt = true →
   returns (handle (Mutations ms)) m
   ∧ currentPreviewType (exec (handle (Mutations ms)) m) = Some item)
  ∧ (is_selected tgt = false →
     exec (handle (Mutations [class_mutation tgt])) m = m).
Proof.
  intros Hitem Hrow Htgt Ho Hafter ms.
  rewrite renderSuggestion_row in Hrow. injection Hrow as <-.
  cbn [dataset_calloutType] in Htgt.
  assert (Hreq : requested_by (class_mutation tgt)
                 = if is_selected tgt then Some item else None).
  { unfold requested_by.
    cbn [class_mutation mutation_type attributeName target].
    rewrite !bool_decide_eq_true_2 by done. cbn [andb].
    destruct (is_selected tgt); [|done]. rewrite Htgt. by destruct item. }
  split; intros Hsel; rewrite Hsel in Hreq.
  - pose proof (handle_Mutations_observing ms m Ho) as Hh.
    pose proof (observer_callback_eq ms m) as Heq. rewrite <- Hh in Heq.
    rewrite (exec_eq _ _ _ _ Heq).
    split; [exact (returns_eq _ _ _ _ Heq)|].
    rewrite run_showPreview_current. unfold ms.
    rewrite omap_app. cbn [omap list_omap]. rewrite Hreq.
    assert (omap requested_by after = []) as ->.
    { clear -Hafter. induction Hafter as [|mu after Hmu _ IH]; [done|].
      csimpl. by rewrite Hmu. }
    by rewrite last_snoc.
  - rewrite (exec_eq _ _ _ _
               (eq_trans (handle_Mutations_observing _ m Ho)
                         (observer_callback_eq _ m))).
    cbn [omap list_omap]. by rewrite Hreq.
Qed.

Lemma keyboard_selection_previews_row_witness :
  let row := {| classList := [lit "suggestion-item"];
                dataset_calloutType := Some (lit "tip");
                children := [lit "tip"]; mouseenter := [lit "tip"] |} in
  let note_row := {| classList := [lit "suggestion-item"];
                     dataset_calloutType := Some (lit "note");
                     children := [lit "note"]; mouseenter := [lit "note"] |} in
  let m := exec (updatePreview (H := ascii_host) (lit "note")) sample_modal in
  currentPreviewType
    (exec (handle (H := ascii_host)
             (Mutations [class_mutation note_row;
                         class_mutation (mark_selected row)])) m)
  = Some (lit "tip")
  ∧ exec (handle (H := ascii_host) (Mutations [class_mutation row])) m = m.
Proof.
  intros row note_row m.
  destruct (keyboard_selection_previews_row (H := ascii_host) (lit "tip")
              (row_element false) row (mark_selected row) sample_modal m
              [class_mutation note_row] [])
    as [Hsel _]; [discriminate|reflexivity|reflexivity|reflexivity|
                  constructor|].
  destruct (keyboard_selection_previews_row (H := ascii_host) (lit "tip")
              (row_element false) row row sample_modal m [] [])
    as [_ Hnot]; [discriminate|reflexivity|reflexivity|reflexivity|
                  constructor|].
  split; [apply Hsel; reflexivity|apply Hnot; reflexivity].
Defined.

(** X8.  A row whose category is the empty string is previewed when the
    pointer enters it and when it is materialized already selected, but
    not when the observer reports that it became selected: the callback
    skips a stored category that is empty, and the picker stays as it
    was. *)
Theorem empty_item_not_previewed_by_observer `{Host} (el row : Element)
    (m0 m : CalloutSuggestModal) :
  (renderSuggestion [] el m0).1 = Normal row →
  observer m = Some {| observing := true |} →
  exec (handle (Mutations [class_mutation (mark_selected row)])) m = m
  ∧ currentPreviewType (exec (handle (MouseEnter [])) m) = Some []
  ∧ currentPreviewType
      (exec (handle (Materialize [] (mark_selected el))) m) = Some [].
Proof.
  intros Hrow Ho.
  rewrite renderSuggestion_row in Hrow. injection Hrow as <-.
  split; [|split].
  - rewrite (exec_eq _ _ _ _
               (eq_trans (handle_Mutations_observing _ m Ho)
                         (observer_callback_eq _ m))).
    cbn [omap list_omap]. unfold requested_by.
    cbn [class_mutation mutation_type attributeName target mark_selected
         dataset_calloutType]. by destruct (_ && _).
  - apply updatePreview_current.
  - rewrite exec_materialize, renderSuggestion_exec.
    rewrite is_selected_mark_selected. apply updatePreview_current.
Qed.

Lemma empty_item_not_previewed_by_observer_witness :
  let row := {| classList := [lit "suggestion-item"];
                dataset_calloutType := Some [];
                children := [[]]; mouseenter := [[]] |} in
  exec (handle (H := ascii_host)
          (Mutations [class_mutation (mark_selected row)])) sample_modal
  = sample_modal.
Proof.
  intros row.
  apply (empty_item_not_previewed_by_observer (H := ascii_host)
           (row_element false) row sample_modal sample_modal);
    reflexivity.
Defined.

(** ** What the picker previews, as it is wired *)

Lemma updatePreview_calloutTypes `{Host} c m :
  calloutTypes (exec (updatePreview c) m) = calloutTypes m.
Proof.
  destruct (decide (currentPreviewType m = Some c)) as [Hc|Hc].
  - by rewrite updatePreview_same.
  - by rewrite updatePreview_other.
Qed.

Lemma updatePreview_previews_categories `{Host} c m :
  c ∈ calloutTypes m → previews_categories m →
  previews_categories (exec (updatePreview c) m).
Proof.
  intros Hc [Hcur Hall].
  destruct (decide (currentPreviewType m = Some c)) as [Heq|Hne].
  - by rewrite updatePreview_same.
  - rewrite updatePreview_other by done. split; simpl.
    + by intros c' [= <-].
    + apply Forall_app in Hall as [_ Hr]. apply Forall_app. split; [done|].
      apply Forall_singleton. by exists c.
Qed.

Lemma run_showPreview_previews_categories `{Host} cs m :
  Forall (λ c, c ∈ calloutTypes m) cs → previews_categories m →
  previews_categories (run (showPreview <$> cs) m)
  ∧ calloutTypes (run (showPreview <$> cs) m) = calloutTypes m.
Proof.
  intros Hcs; revert m Hcs; induction cs as [|c cs IH]; intros m Hcs Hm;
    [done|].
  apply Forall_cons in Hcs as [Hc Hcs]. rewrite run_showPreview_cons.
  destruct (IH (exec (updatePreview c) m)) as [Hp Ht].
  - by rewrite updatePreview_calloutTypes.
  - by apply updatePreview_previews_categories.
  - split; [done|]. by rewrite Ht, updatePreview_calloutTypes.
Qed.

Lemma requested_by_dataset mutation c :
  requested_by mutation = Some c →
  dataset_calloutType (target mutation) = Some c.
Proof.
  unfold requested_by. destruct (_ && _); [|done].
  destruct (dataset_calloutType (target mutation)) as [[|? ?]|]; done.
Qed.

Lemma render_settles_previews_categories `{Host} i r m :
  previews_categories m → previews_categories (render_settles i r m).
Proof.
  intros [Hcur Hall]. unfold render_settles.
  destruct (rendering m !! i) as [source|] eqn:Hi; [|done].
  rewrite (delete_Permutation _ _ _ Hi) in Hall.
  apply Forall_app in Hall as [Hp Hr]. apply Forall_cons in Hr as [Hs Hr].
  destruct r; split; simpl; try done.
  - rewrite <- app_assoc. apply Forall_app. split; [done|].
    by apply Forall_cons.
  - by apply Forall_app.
Qed.

Lemma render_settles_calloutTypes i r m :
  calloutTypes (render_settles i r m) = calloutTypes m.
Proof.
  unfold render_settles. destruct (rendering m !! i); [|done]. by destruct r.
Qed.

Lemma wired_step `{Host} ev m :
  wired (calloutTypes m) ev → previews_categories m →
  previews_categories (exec (handle ev) m)
  ∧ calloutTypes (exec (handle ev) m) = calloutTypes m.
Proof.
  intros Hev Hm. destruct ev as [item el|item|ms|i r|item|].
  - rewrite exec_materialize, renderSuggestion_exec.
    destruct (is_selected el); [|done].
    split; [by apply updatePreview_previews_categories|].
    apply updatePreview_calloutTypes.
  - rewrite exec_showPreview.
    split; [by apply updatePreview_previews_categories|].
    apply updatePreview_calloutTypes.
  - destruct (observer m) as [[[|]]|] eqn:Ho.
    + rewrite (exec_eq _ _ _ _
                 (eq_trans (handle_Mutations_observing _ m Ho)
                           (observer_callback_eq _ m))).
      apply run_showPreview_previews_categories; [|done].
      simpl in Hev. clear -Hev.
      induction Hev as [|mutation ms Hmu _ IH]; [done|]. csimpl.
      destruct (requested_by mutation) as [c|] eqn:Hreq; [|done].
      constructor; [|done]. by apply Hmu, requested_by_dataset.
    + unfold handle, exec. js_unfold. by rewrite Ho.
    + unfold handle, exec. js_unfold. by rewrite Ho.
  - rewrite exec_settles.
    split; [by apply render_settles_previews_categories|].
    apply render_settles_calloutTypes.
  - by unfold handle, onChooseItem, exec; rewrite insertCallout_eq.
  - by unfold handle, exec; rewrite onClose_eq.
Qed.

(** X9.  [updatePreview] does not check its argument, but the picker's
    wiring only hands it the picker's own categories: when rows are
    materialized for items of the picker, the pointer enters such rows and
    the rows the observer reports carry what [renderSuggestion] stored,
    then through any sequence of events the category list stays as it
    was, the current category is one of the list, and every document
    mounted or in flight is the sample document of a category of the
    list. *)
Theorem wired_events_preview_categories `{Host} (evs : list Event)
    (m : CalloutSuggestModal) :
  previews_categories m →
  Forall (wired (calloutTypes m)) evs →
  previews_categories (run evs m)
  ∧ calloutTypes (run evs m) = calloutTypes m.
Proof.
  intros Hm Hevs; revert m Hm Hevs; induction evs as [|ev evs IH];
    intros m Hm Hevs; [done|].
  apply Forall_cons in Hevs as [Hev Hevs]. rewrite run_cons.
  destruct (wired_step ev m Hev Hm) as [Hp Ht].
  destruct (IH (exec (handle ev) m)) as [Hp' Ht']; [done|by rewrite Ht|].
  split; [done|]. by rewrite Ht'.
Qed.

Lemma wired_events_preview_categories_witness :
  let evs := [Materialize (lit "abstract") (row_element true);
              MouseEnter (lit "tip"); Settles 0 Fulfilled;
              Mutations [class_mutation
                           (mark_selected
                              {| classList := [];
                                 dataset_calloutType := Some (lit "note");
                                 children := []; mouseenter := [] |})];
              Choose (lit "note"); Close] in
  previews_categories (H := ascii_host)
    (run (H := ascii_host) evs sample_modal).
Proof.
  intros evs.
  apply (wired_events_preview_categories (H := ascii_host) evs sample_modal).
  - split; [discriminate|constructor].
  - repeat (apply Forall_cons; split); try apply Forall_nil;
      cbn [wired]; try exact I;
      try (apply (bool_decide_unpack _); vm_compute; exact I).
    intros t [= <-]. apply (bool_decide_unpack _). vm_compute. exact I.
Defined.

(** ** Requests that do not overlap *)

Lemma one_at_a_time_cons c cs : 
  one_at_a_time (c :: cs)
  = showPreview c :: Settles 0 Fulfilled :: one_at_a_time cs.
Proof. done. Qed.

(** X10.  When every render is fulfilled before the next request is made,
    the preview container always ends up holding exactly the sample
    document of the category requested last, with nothing in flight;
    repeated requests for the same category change nothing. *)
Theorem one_at_a_time_shows_last `{Host} (cs : list jsstring)
    (m : CalloutSuggestModal) :
  rendering m = [] →
  previewEl m
  = from_option (λ c, [calloutMarkdown c]) [] (currentPreviewType m) →
  let m' := run (one_at_a_time cs) m in
  rendering m' = []
  ∧ currentPreviewType m'
    = from_option Some (currentPreviewType m) (last cs)
  ∧ previewEl m'
    = from_option (λ c, [calloutMarkdown c]) [] (currentPreviewType m').
Proof.
  revert m; induction cs as [|c cs IH]; intros m Hr Hp; [done|].
  cbn zeta. rewrite one_at_a_time_cons, !run_cons.
  rewrite exec_showPreview, exec_settles.
  set (m1 := render_settles 0 Fulfilled (exec (updatePreview c) m)).
  assert (Hm1 : rendering m1 = [] ∧ currentPreviewType m1 = Some c
                ∧ previewEl m1 = [calloutMarkdown c]).
  { unfold m1. destruct (decide (currentPreviewType m = Some c)) as [Hc|Hc].
    - rewrite updatePreview_same by done. unfold render_settles.
      rewrite Hr. cbn [lookup list_lookup]. by rewrite Hp, Hc.
    - rewrite updatePreview_other by done. unfold render_settles.
      cbn [rendering]. by rewrite Hr. }
  destruct Hm1 as (Hr1 & Hc1 & Hp1).
  destruct (IH m1) as (Hr' & Hc' & Hp'); [done|by rewrite Hc1|].
  split; [done|]. split; [|done].
  rewrite Hc', Hc1, last_cons. by destruct (last cs).
Qed.

Lemma one_at_a_time_shows_last_witness :
  previewEl (run (H := ascii_host)
               (one_at_a_time [lit "note"; lit "tip"; lit "tip"; lit "bug"])
               sample_modal)
  = [calloutMarkdown (H := ascii_host) (lit "bug")].
Proof.
  destruct (one_at_a_time_shows_last (H := ascii_host)
              [lit "note"; lit "tip"; lit "tip"; lit "bug"] sample_modal
              eq_refl eq_refl) as (_ & Hc & Hp).
  rewrite Hp, Hc. reflexivity.
Defined.

(** ** Where the insertion leaves the cursor *)

Lemma join_lines_snoc_length A x :
  length (join_lines (A ++ [x])) = (length (sep_lines A) + length x)%nat.
Proof.
  rewrite join_lines_sep, sep_lines_app, sep_lines_cons.
  rewrite length_drop, !length_app. simpl. rewrite length_app. simpl. lia.
Qed.

Lemma insertCallout_cursor `{Host} t m :
  valid_pos (lines (editor m)) (cursor (editor m)) →
  lines_ok (lines (editor m)) → LF ∉ t →
  let e' := editor (exec (insertCallout t) m) in
  cursor e' = {| line := line (cursor (editor m)) + 1; ch := 2 |}
  ∧ valid_pos (lines e') (cursor e')
  ∧ lines_ok (lines e')
  ∧ posToOffset (lines e') (cursor e')
    = (posToOffset (lines (editor m)) (cursor (editor m))
       + length (calloutText t))%nat
  ∧ length (lines e') = S (length (lines (editor m))).
Proof.
  intros (l & Hl & Hch) Hok Ht e'.
  assert (HLl : LF ∉ l).
  { unfold lines_ok in Hok. rewrite Forall_forall in Hok.
    apply Hok. by eapply list_elem_of_lookup_2. }
  pose proof (insertCallout_lines t m l Hl HLl Ht) as Hlines.
  fold e' in Hlines.
  assert (Hcur : cursor e'
                 = {| line := line (cursor (editor m)) + 1; ch := 2 |})
    by (unfold e', exec; by rewrite insertCallout_eq).
  set (L := line (cursor (editor m))) in *.
  set (C := ch (cursor (editor m))) in *.
  set (ls := lines (editor m)) in *.
  assert (HL : (L < length ls)%nat) by (by eapply lookup_lt_Some).
  assert (Htake : length (take L ls) = L) by (rewrite length_take; lia).
  assert (Hlit : (LF ∉ lit "> [!") ∧ (LF ∉ lit "]") ∧ (LF ∉ lit "> ")).
  { repeat split; intros Hin;
      repeat (apply elem_of_cons in Hin as [Hin|Hin]; [done|]);
      by apply not_elem_of_nil in Hin. }
  destruct Hlit as (Hlit1 & Hlit2 & Hlit3).
  split; [done|]. rewrite Hcur, Hlines. split; [|split; [|split]].
  - exists (lit "> " ++ drop C l). cbn [line ch]. split.
    + rewrite lookup_app_r by lia.
      replace (L + 1 - length (take L ls))%nat with 1%nat by lia.
      reflexivity.
    + rewrite length_app. simpl. lia.
  - unfold lines_ok in *. apply Forall_app. split; [by apply Forall_take|].
    apply Forall_app. split; [|by apply Forall_drop].
    apply Forall_cons; split; [|apply Forall_cons; split; [|by apply Forall_nil]].
    + rewrite !not_elem_of_app. repeat split; try done.
      intros Hin. by apply HLl, (subseteq_take _ _ _ Hin).
    + rewrite not_elem_of_app. split; [done|].
      intros Hin. by apply HLl, (subseteq_drop _ _ _ Hin).
  - unfold posToOffset. cbn [line ch].
    replace (L + 1)%nat with (length (take L ls) + 1)%nat at 1 by lia.
    rewrite take_app_add. cbn [take app].
    rewrite <- app_assoc. cbn [app]. fold L C.
    rewrite (cons_middle _ (take L ls) [[]]), app_assoc.
    rewrite !join_lines_snoc_length.
    rewrite sep_lines_app, sep_lines_cons, !length_app. cbn [length].
    rewrite !length_app, length_take. unfold calloutText.
    rewrite !length_app. simpl. lia.
  - rewrite !length_app, length_take, length_drop. simpl. lia.
Qed.

(** X11.  When neither the category nor a line of the document holds a
    line break, the document gains exactly one line and the cursor ends
    at a valid position directly behind the inserted text: its offset is
    the old offset plus the length of the snippet.  The document still
    has no line break inside a line. *)
Theorem insertCallout_cursor_follows_snippet `{Host} (t : jsstring)
    (m : CalloutSuggestModal) :
  valid_pos (lines (editor m)) (cursor (editor m)) →
  lines_ok (lines (editor m)) → LF ∉ t →
  let e' := editor (exec (insertCallout t) m) in
  valid_pos (lines e') (cursor e')
  ∧ lines_ok (lines e')
  ∧ posToOffset (lines e') (cursor e')
    = (posToOffset (lines (editor m)) (cursor (editor m))
       + length (calloutText t))%nat
  ∧ length (lines e') = S (length (lines (editor m))).
Proof.
  intros Hv Hok Ht e'.
  by destruct (insertCallout_cursor t m Hv Hok Ht) as (_ & ? & ? & ? & ?).
Qed.

Lemma sample_editor_ok :
  valid_pos (lines sample_editor) (cursor sample_editor)
  ∧ lines_ok (lines sample_editor).
Proof.
  split.
  - exists (lit "More text here."). split; [reflexivity|simpl; lia].
  - repeat constructor; intros Hin;
      repeat (apply elem_of_cons in Hin as [Hin|Hin]; [discriminate Hin|]);
      by apply not_elem_of_nil in Hin.
Defined.

Lemma lit_warning_no_LF : LF ∉ lit "warning".
Proof.
  intros Hin.
  repeat (apply elem_of_cons in Hin as [Hin|Hin]; [discriminate Hin|]).
  by apply not_elem_of_nil in Hin.
Defined.

Lemma insertCallout_cursor_follows_snippet_witness :
  let e' := editor (exec (insertCallout (H := ascii_host) (lit "warning"))
                      sample_modal) in
  posToOffset (lines e') (cursor e') = 39%nat
  ∧ length (lines e') = 6%nat.
Proof.
  intros e'.
  destruct (insertCallout_cursor_follows_snippet (H := ascii_host)
              (lit "warning") sample_modal (proj1 sample_editor_ok)
              (proj2 sample_editor_ok) lit_warning_no_LF)
    as (_ & _ & Hoff & Hlen).
  split; [exact Hoff|exact Hlen].
Defined.

(** X12.  Two insertions in a row nest: the second snippet goes directly
    behind the first, both between the text before and the text after
    the original cursor, and the cursor ends two lines down at column
    2. *)
Theorem insertCallout_twice_nests `{Host} (t1 t2 : jsstring)
    (m : CalloutSuggestModal) :
  valid_pos (lines (editor m)) (cursor (editor m)) →
  lines_ok (lines (editor m)) → LF ∉ t1 →
  let text := join_lines (lines (editor m)) in
  let off := posToOffset (lines (editor m)) (cursor (editor m)) in
  let m2 := run [Choose t1; Choose t2] m in
  join_lines (lines (editor m2))
  = take off text ++ calloutText t1 ++ calloutText t2 ++ drop off text
  ∧ cursor (editor m2)
    = {| line := line (cursor (editor m)) + 2; ch := 2 |}.
Proof.
  intros Hv Hok Ht text off m2.
  set (m1 := exec (insertCallout t1) m).
  assert (Hm2 : m2 = exec (insertCallout t2) m1) by done.
  destruct (insertCallout_cursor t1 m Hv Hok Ht)
    as (Hcur1 & Hv1 & _ & Hoff1 & _).
  fold m1 in Hcur1, Hv1, Hoff1. fold off in Hoff1.
  assert (Htext1 : join_lines (lines (editor m1))
                   = take off text ++ calloutText t1 ++ drop off text).
  { unfold m1, exec. rewrite insertCallout_eq. by apply insert_at_text. }
  rewrite Hm2. unfold exec at 1 2. rewrite insertCallout_eq.
  cbn [snd set_editor editor lines cursor Editor_focus Editor_setCursor
       Editor_replaceRange].
  split.
  - rewrite insert_at_text by done. rewrite Hoff1, Htext1.
    assert (Hlen : length (take off text) = off).
    { destruct (text_at_pos _ _ Hv) as (b & a & Hj & Hb & _).
      unfold text. rewrite Hj. fold off in Hb. rewrite <- Hb.
      by rewrite take_app_length. }
    rewrite (app_assoc (take off text)).
    replace (off + length (calloutText t1))%nat
      with (length (take off text ++ calloutText t1))
      by (rewrite length_app; lia).
    rewrite take_app_length, drop_app_length. by rewrite <- app_assoc.
  - rewrite Hcur1. cbn [line]. f_equal. lia.
Qed.

Lemma insertCallout_twice_nests_witness :
  lines (editor (run (H := ascii_host)
                   [Choose (lit "warning"); Choose (lit "tip")]
                   sample_modal))
  = [lit "# Title"; []; lit "Some text."; lit "More> [!warning]";
     lit "> > [!tip]"; lit ">  text here."; lit "The end."]
  ∧ cursor (editor (run (H := ascii_host)
                      [Choose (lit "warning"); Choose (lit "tip")]
                      sample_modal))
    = {| line := 5; ch := 2 |}.
Proof.
  destruct (insertCallout_twice_nests (H := ascii_host) (lit "warning")
              (lit "tip") sample_modal (proj1 sample_editor_ok)
              (proj2 sample_editor_ok) lit_warning_no_LF) as [_ Hcur].
  split; [reflexivity|exact Hcur].
Defined.

(** ** The settings tab *)

Lemma Array_join_nil sep xs :
  sep ≠ [] → Array_join sep xs = [] ↔ xs = [] ∨ xs = [[]].
Proof.
  intros Hsep. destruct xs as [|x [|y xs]]; cbn [Array_join].
  - split; [by left|done].
  - split; [intros ->; by right|]. by intros [?|[= ->]].
  - split; [|by intros [?|?]]. intros Hnil.
    apply app_eq_nil in Hnil as [_ Hnil].
    apply app_eq_nil in Hnil as [Hnil _]. done.
Qed.

Lemma display_eq t :
  display t
  = (Normal (),
     {| tab_plugin := tab_plugin t;
        containerEl :=
          [Heading2 (lit "Callout Inserter Settings");
           SettingRow (lit "Refresh callout types from CSS")
             (lit "Re-scan the callouts.css file for available callout types")
             (length (buttons t));
           Heading3 (lit "Found Callout Types");
           Div (lit "callout-types-list")
             (or_else (Array_join (lit ", ")
                         (getAvailableCalloutTypes (tab_plugin t)))
                      (lit "None found"))];
        buttons := buttons t ++ [lit "Refresh"];
        timeouts := timeouts t |}).
Proof. done. Qed.

(** The text of the list of types in a rendered tab. *)
Lemma display_text t :
  last (containerEl (exec display t))
  = Some (Div (lit "callout-types-list")
            (or_else (Array_join (lit ", ")
                        (getAvailableCalloutTypes (tab_plugin t)))
                     (lit "None found"))).
Proof. by rewrite (exec_eq _ _ _ _ (display_eq t)). Qed.

(** X13.  [display] completes normally and rebuilds the tab from
    scratch, so that displaying again never piles up elements: there are
    always the four of them, the last one the list of types.  That list
    reads None found exactly when no name other than the empty string is
    scanned or configured, also when the empty name is and the picker
    offers it; otherwise it is the names the picker offers, joined. *)
Theorem display_lists_types_or_none (t : CalloutInserterSettingTab) :
  let p := tab_plugin t in
  let shown := exec display t in
  let text := or_else (Array_join (lit ", ") (getAvailableCalloutTypes p))
                      (lit "None found") in
  returns display t
  ∧ tab_plugin shown = p
  ∧ length (containerEl shown) = 4%nat
  ∧ length (containerEl (exec display shown)) = 4%nat
  ∧ last (containerEl shown) = Some (Div (lit "callout-types-list") text)
  ∧ last (containerEl (exec display shown))
    = Some (Div (lit "callout-types-list") text)
  ∧ ((∀ x, x ∈ cssCalloutTypes p ∨ x ∈ defaultCalloutTypes (settings p) →
           x = []) →
     text = lit "None found")
  ∧ ((∃ x, (x ∈ cssCalloutTypes p ∨ x ∈ defaultCalloutTypes (settings p))
           ∧ x ≠ []) →
     text = Array_join (lit ", ") (getAvailableCalloutTypes p)).
Proof.
  intros p shown text.
  assert (Hshown : tab_plugin shown = p)
    by (unfold shown; by rewrite (exec_eq _ _ _ _ (display_eq t))).
  split; [exact (returns_eq _ _ _ _ (display_eq t))|]. split; [done|].
  split; [unfold shown; by rewrite (exec_eq _ _ _ _ (display_eq t))|].
  split; [by rewrite (exec_eq _ _ _ _ (display_eq shown))|].
  split; [apply display_text|].
  split; [by rewrite display_text, Hshown|].
  assert (Hnil : Array_join (lit ", ") (getAvailableCalloutTypes p) = []
                 ↔ ∀ x, x ∈ cssCalloutTypes p
                        ∨ x ∈ defaultCalloutTypes (settings p) → x = []).
  { rewrite Array_join_nil by done. split.
    - intros Hav x Hx. apply getAvailableCalloutTypes_elem in Hx.
      destruct Hav as [Hav|Hav]; rewrite Hav in Hx.
      + by apply not_elem_of_nil in Hx.
      + by apply list_elem_of_singleton in Hx.
    - intros Hall.
      pose proof (getAvailableCalloutTypes_NoDup p) as Hnd.
      assert (Hav : ∀ x, x ∈ getAvailableCalloutTypes p → x = [])
        by (intros x Hx; by apply Hall, getAvailableCalloutTypes_elem).
      destruct (getAvailableCalloutTypes p) as [|x [|y av]]; [by left| |].
      + right. f_equal. apply Hav. left.
      + exfalso. apply NoDup_cons in Hnd as [Hx _]. apply Hx.
        rewrite (Hav x), (Hav y); [left|right; left|left]. }
  unfold text. split.
  - intros Hall. apply Hnil in Hall. by rewrite Hall.
  - intros (x & Hx & Hne).
    destruct (Array_join (lit ", ") (getAvailableCalloutTypes p)) eqn:Hj;
      [|done].
    exfalso. apply Hne. by apply (proj1 Hnil).
Qed.

Lemma display_lists_types_or_none_witness :
  let p := {| configDir := lit ".obsidian";
              settings := {| defaultCalloutTypes := [[]] |};
              cssCalloutTypes := []; reading := []; console := [] |} in
  let t := {| tab_plugin := p; containerEl := []; buttons := [];
              timeouts := [] |} in
  getAvailableCalloutTypes p = [[]]
  ∧ last (containerEl (exec display t))
    = Some (Div (lit "callout-types-list") (lit "None found")).
Proof.
  intros p t.
  destruct (display_lists_types_or_none t)
    as (_ & _ & _ & _ & Hlast & _ & Hnone & _).
  split; [reflexivity|]. rewrite Hlast. rewrite Hnone; [done|].
  intros x [Hx|Hx].
  - by apply not_elem_of_nil in Hx.
  - by apply list_elem_of_singleton in Hx.
Defined.

Lemma onClick_eq b t :
  onClick b t
  = (Normal (),
     {| tab_plugin := exec parseCalloutTypesFromCSS (tab_plugin t);
        containerEl := containerEl t;
        buttons := <[b := lit "Refreshed!"]> (buttons t);
        timeouts := timeouts t ++ [b] |}).
Proof. done. Qed.

(** X14.  A click on the Refresh button starts a scan and relabels the
    button Refreshed! at once, while the read is still in flight and
    whether it will succeed or fail.  Neither the click nor the
    settlement of the read re-renders the tab: the elements shown, the
    list of types among them, stay as they were, even when the scanned
    categories have changed.  When the timeout runs, the button reads
    Refresh again. *)
Theorem refresh_relabels_but_keeps_list (t : CalloutInserterSettingTab)
    (b : nat) (vault : Vault) :
  (b < length (buttons t))%nat →
  let clicked := exec (onClick b) t in
  let settled := exec (on_plugin (read_settles vault)) clicked in
  let later := exec (timeout_fires (length (timeouts t))) settled in
  returns (onClick b) t
  ∧ reading (tab_plugin clicked)
    = reading (tab_plugin t) ++ [cssPath (tab_plugin t)]
  ∧ cssCalloutTypes (tab_plugin clicked) = cssCalloutTypes (tab_plugin t)
  ∧ buttons clicked !! b = Some (lit "Refreshed!")
  ∧ containerEl clicked = containerEl t
  ∧ returns (on_plugin (read_settles vault)) clicked
  ∧ containerEl settled = containerEl t
  ∧ buttons settled !! b = Some (lit "Refreshed!")
  ∧ buttons later !! b = Some (lit "Refresh")
  ∧ containerEl later = containerEl t
  ∧ timeouts later = timeouts t.
Proof.
  intros Hb clicked settled later.
  assert (Hclicked : clicked = (onClick b t).2) by done.
  rewrite onClick_eq in Hclicked. cbn [snd] in Hclicked.
  assert (Hret : ∀ p, ∃ p', read_settles vault p = (Normal (), p')).
  { intros p. unfold read_settles, parse_settled, parse_fulfilled,
      parse_rejected. js_unfold.
    destruct (reading p) as [|path rest]; [by eexists|].
    destruct (vault path); by eexists. }
  destruct (Hret (tab_plugin clicked)) as [p' Hp'].
  assert (Hsettled : settled
    = {| tab_plugin := p'; containerEl := containerEl clicked;
         buttons := buttons clicked; timeouts := timeouts clicked |}).
  { unfold settled, exec, on_plugin. by rewrite Hp'. }
  split; [exact (returns_eq _ _ _ _ (onClick_eq b t))|].
  rewrite Hclicked in Hsettled |- *. cbn [tab_plugin containerEl buttons].
  split; [done|]. split; [done|].
  split; [by apply list_lookup_insert_eq|]. split; [done|].
  split.
  { unfold returns, on_plugin. rewrite <- Hclicked, Hp'. by eexists. }
  cbn [containerEl buttons timeouts] in Hsettled.
  unfold later, timeout_fires. js_unfold. rewrite Hsettled.
  cbn [containerEl buttons timeouts].
  rewrite lookup_last. cbn [snd containerEl buttons timeouts set_timeouts
                            set_buttons].
  split; [done|]. split; [by apply list_lookup_insert_eq|].
  split; [|split; [done|apply delete_last]].
  apply list_lookup_insert_eq. by rewrite length_insert.
Qed.

Lemma refresh_relabels_but_keeps_list_witness :
  let t := exec display {| tab_plugin := sample_plugin; containerEl := [];
                           buttons := []; timeouts := [] |} in
  let vault : Vault := λ _, inl (HostError (lit "ENOENT")) in
  let settled := exec (on_plugin (read_settles vault)) (exec (onClick 0) t) in
  buttons settled !! 0%nat = Some (lit "Refreshed!")
  ∧ cssCalloutTypes (tab_plugin settled) = []
  ∧ containerEl settled = containerEl t.
Proof.
  intros t vault settled.
  destruct (refresh_relabels_but_keeps_list t 0 vault)
    as (_ & _ & _ & _ & _ & _ & Hc & Hb & _).
  - vm_compute. lia.
  - split; [exact Hb|]. split; [reflexivity|exact Hc].
Defined.

(** ** Whole stylesheets *)

Lemma matchAll_from_text rest : 91 ∉ rest → matchAll_from 0 rest = [].
Proof.
  intros Hrest. rewrite <- (app_nil_r rest).
  by rewrite matchAll_from_no_bracket.
Qed.

(** X15.  From a stylesheet made of well-formed rules, with no opening
    bracket in the text between and behind them, the scan captures the
    names of all the rules, in the order of the rules and with their
    repetitions. *)
Theorem matchAll_stylesheet (rules : list Rule) (rest : jsstring) :
  Forall well_formed rules → 91 ∉ rest →
  matchAll (stylesheet rules rest) = rule_name <$> rules.
Proof.
  intros Hrules Hrest. unfold matchAll, stylesheet.
  induction Hrules as [|r rules (Hpre & Hq & Hq' & Hne & Hname) _ IH].
  - by apply matchAll_from_text.
  - csimpl. unfold rule_text at 1. rewrite <- !app_assoc.
    rewrite matchAll_from_rule by done. by rewrite IH.
Qed.

Lemma matchAll_stylesheet_witness :
  matchAll (lit ".callout[data-callout='idea'] {} /* x */ [data-callout='plan']{}")
  = [lit "idea"; lit "plan"].
Proof.
  apply (matchAll_stylesheet
           [ {| text_before := lit ".callout"; open_quote := 39;
                rule_name := lit "idea"; close_quote := 39 |};
             {| text_before := lit " {} /* x */ "; open_quote := 39;
                rule_name := lit "plan"; close_quote := 39 |} ]
           (lit "{}")).
  - repeat (apply Forall_cons; split); try (by apply Forall_nil);
      (split; [|split; [reflexivity|split; [reflexivity|split;
         [discriminate|repeat constructor]]]]);
      apply (bool_decide_unpack _); vm_compute; exact I.
  - apply (bool_decide_unpack _). vm_compute. exact I.
Defined.

(** X16.  A rule whose value is written without quotes, and a rule whose
    quoted value is empty, are not captured: with no other opening bracket
    around, the scan passes over them and goes on behind them. *)
Theorem matchAll_skips_unquoted_and_empty (pre name post : jsstring)
    (q q' : code_unit) :
  91 ∉ pre → 91 ∉ name →
  match name with [] => True | c :: _ => c ≠ 34 ∧ c ≠ 39 end →
  (q = 34 ∨ q = 39) → (q' = 34 ∨ q' = 39) →
  matchAll (pre ++ lit "[data-callout=" ++ name ++ [93] ++ post)
  = matchAll post
  ∧ matchAll (pre ++ lit "[data-callout=" ++ [q; q'] ++ [93] ++ post)
    = matchAll post.
Proof.
  intros Hpre Hname Hhead Hq Hq'. unfold matchAll.
  assert (Hskip : ∀ mid,
    match_here (lit "[data-callout=" ++ mid ++ 93 :: post) = None →
    91 ∉ mid →
    matchAll_from 0 (pre ++ lit "[data-callout=" ++ mid ++ [93] ++ post)
    = matchAll_from 0 post).
  { intros mid Hm Hmid. rewrite matchAll_from_no_bracket by done.
    change (lit "[data-callout=") with (91 :: lit "data-callout=") in *.
    cbn [app matchAll_from] in *. rewrite Hm.
    rewrite (cons_middle 93), !app_assoc.
    apply matchAll_from_no_bracket.
    rewrite !not_elem_of_app. repeat split; [|done|].
    - apply (bool_decide_unpack _). vm_compute. exact I.
    - apply (bool_decide_unpack _). vm_compute. exact I. }
  split.
  - apply Hskip; [|done]. unfold match_here.
    rewrite strip_prefix_app. destruct name as [|c name]; [done|].
    cbn [app]. destruct Hhead as [H34 H39]. unfold is_quote.
    by destruct (N.eqb_spec c 34), (N.eqb_spec c 39).
  - apply Hskip.
    + unfold match_here. rewrite strip_prefix_app. cbn [app].
      by destruct Hq as [->| ->], Hq' as [->| ->].
    + destruct Hq as [->| ->], Hq' as [->| ->];
        apply (bool_decide_unpack _); vm_compute; exact I.
Qed.

Lemma matchAll_skips_unquoted_and_empty_witness :
  matchAll (lit ".callout[data-callout=custom] {}") = []
  ∧ matchAll (lit ".callout[data-callout=''] {}") = [].
Proof.
  apply (matchAll_skips_unquoted_and_empty (lit ".callout") (lit "custom")
           (lit " {}") 39 39).
  - apply (bool_decide_unpack _). vm_compute. exact I.
  - apply (bool_decide_unpack _). vm_compute. exact I.
  - split; discriminate.
  - by right.
  - by right.
Defined.
